(** * nonebot-plugin-whoasked: the message recorder and the query path

    A shallow embedding of [data_manager.py] (class [MessageRecorder]) and of
    [process_query] from [__init__.py], with the properties of the recorder,
    the retention policy, the persistence store and the query engine.

    Conventions of the embedding.
    - A recorded message is the dictionary [message_info] the recorder
      builds; its eight keys are fixed, so it is a record whose fields carry
      the keys' names.
    - [self.messages] is a [gmap] from recipient to the list of its records.
    - Identities are the strings the code obtains with [str(...)].
    - A record is never changed once it is built, so that one dictionary is
      shared by the lists of several recipients is not modelled: each list
      holds the record by value.
    - [time.time()] reads a clock that is part of the world; every call
      consumes one reading, so two calls inside one invocation may differ.
    - Exceptions are explicit: a computation returns a value or raises, and
      [try ... except Exception] is a combinator.
    - The text layer of the [json] module is not modelled: a file holds the
      document its text denotes, or text that does not parse.
    - The world keeps a journal of the recorder's own calls (appends, prunes,
      saves); it is ghost state used to state how often and in which order
      they happen. *)

From stdpp Require Import gmap strings list fin_maps sorting.

Set Warnings "-register-all".

Open Scope Z_scope.

(** ** Python values that occur in the stored document *)

Module Json.

(** What [json.load] returns and [json.dump] accepts, restricted to the types
    the recorder stores. A dictionary keeps its insertion order. *)
Inductive value :=
| Null
| Bool (b : bool)
| Int (z : Z)
| Str (s : string)
| List (l : list value)
| Dict (d : list (string * value)).

(** A JSON document, as it sits in the file. An object may repeat a key. *)
Inductive document :=
| JNull
| JBool (b : bool)
| JNumber (z : Z)
| JString (s : string)
| JArray (l : list document)
| JObject (d : list (string * document)).

(** [d[k] = v] on an insertion-ordered dictionary: an existing key keeps its
    place and takes the new value, a new key goes last. *)
Fixpoint setitem {A} (k : string) (v : A) (d : list (string * A)) : list (string * A) :=
  match d with
  | [] => [(k, v)]
  | (k', v') :: d' => if decide (k = k') then (k, v) :: d' else (k', v') :: setitem k v d'
  end.

Definition dict_of_pairs {A} (ps : list (string * A)) : list (string * A) :=
  foldl (fun d p => setitem p.1 p.2 d) [] ps.

(** [json.dump]: the document of a value. *)
Fixpoint dump (v : value) : document :=
  match v with
  | Null => JNull
  | Bool b => JBool b
  | Int z => JNumber z
  | Str s => JString s
  | List l => JArray (map dump l)
  | Dict d => JObject (map (fun p => (p.1, dump p.2)) d)
  end.

(** [json.load]: the value of a document; an object becomes a dictionary
    built pair by pair, so a repeated key keeps its last value. *)
Fixpoint load (j : document) : value :=
  match j with
  | JNull => Null
  | JBool b => Bool b
  | JNumber z => Int z
  | JString s => Str s
  | JArray l => List (map load l)
  | JObject d => Dict (dict_of_pairs (map (fun p => (p.1, load p.2)) d))
  end.

(** Values whose dictionaries have pairwise distinct keys, at every depth:
    every Python dictionary is one. *)
Fixpoint wf (v : value) : Prop :=
  match v with
  | List l => foldr (fun x P => wf x ∧ P) True l
  | Dict d => NoDup (map fst d) ∧ foldr (fun p P => wf p.2 ∧ P) True d
  | _ => True
  end.

End Json.

(** ** Python built-ins used by the recorder *)

Module Py.

(** [a or b] on optional strings: [a] when it is truthy (a non-empty
    string), [b] otherwise. *)
Definition or_ (a b : option string) : option string :=
  match a with
  | Some s => if decide (s = "") then b else a
  | None => b
  end.

(** [l[:n]]: the first [n] items, and for a negative [n] all but the last
    [-n]. *)
Definition slice_to {A} (n : Z) (l : list A) : list A :=
  if decide (0 ≤ n) then take (Z.to_nat n) l
  else take (length l - Z.to_nat (- n))%nat l.

Section sorted.
Context {A : Type} (key : A → Z).

(** One step of a stable descending sort: [x] stood before every item of
    [l] in the input, so it goes in front of the first item whose key is not
    greater than its own. *)
Fixpoint insert_reverse (x : A) (l : list A) : list A :=
  match l with
  | [] => [x]
  | y :: l' => if decide (key x < key y) then y :: insert_reverse x l' else x :: l
  end.

(** [sorted(l, key=key, reverse=True)]: descending by key, items of equal
    key in their original order. *)
Definition sorted_reverse (l : list A) : list A := foldr insert_reverse [] l.

(** The order of a list sorted that way: no item is followed by one of a
    greater key. *)
Definition descending (a b : A) : Prop := key b ≤ key a.

End sorted.

End Py.

(** ** The data model *)

(** The dictionary [message_info]; a field per key. *)
Record Event := {
  time : Z;
  user_id : string;
  raw_message : string;
  at_list : list string;
  is_reply : bool;
  reply_user_id : option string;
  group_id : option string;
  sender_name : option string
}.

#[global] Instance Event_eq_dec : EqDecision Event.
Proof. solve_decision. Defined.

(** A segment of an inbound message: [seg.type] and [seg.data], the values
    of [seg.data] already as [str(...)] gives them. *)
Record MessageSegment := {
  seg_type : string;
  seg_data : gmap string string
}.

(** [event.sender] and [reply.sender]. *)
Record Sender := {
  sender_user_id : string;
  card : option string;
  nickname : option string
}.

(** [event.reply]: the replied-to message as the adapter hands it over,
    with its own time stamp. *)
Record Reply := {
  reply_time : Z;
  reply_sender : Sender;
  reply_message : list MessageSegment
}.

(** An inbound [MessageEvent]; [event_group_id] is [Some] exactly for a
    [GroupMessageEvent]. *)
Record MessageEvent := {
  event_user_id : string;
  event_group_id : option string;
  event_message : list MessageSegment;
  event_reply : option Reply;
  event_sender : Sender
}.

(** The two settings of the plugin that the recorder reads. *)
Record Config := {
  who_at_me_storage_days : Z;
  who_at_me_max_messages : Z
}.

(** ** The world: the recorder's state and its environment *)

Inductive exn :=
| OSError
| JSONDecodeError
| AttributeError
| TypeError
| KeyError.

(** The file at [self.message_file]. *)
Inductive file :=
| Missing                        (* [os.path.exists] is false *)
| Unreadable                     (* opening or reading it raises *)
| Garbled                        (* its text is not JSON *)
| Holds (doc : Json.document).

(** What the storage does with the next write. *)
Inductive storage :=
| Healthy
| MakedirsFails                  (* [os.makedirs] raises *)
| OpenFails                      (* [open(..., "w")] raises, the file is untouched *)
| DumpFails.                     (* the file is truncated, then writing raises *)

Inductive log_record :=
| info_no_history
| info_loaded (n : nat)
| error_load_failed (e : exn)
| error_save_failed (e : exn)
| error_record_failed (e : exn).

(** The journal of the recorder's own calls. *)
Inductive call :=
| record_for_users_called (at_list : list string) (reply_user_id : option string)
    (message_info : Event)
| appended (recipient : string) (message_info : Event)
| clean_old_messages_called (expire_time : Z)
| save_messages_called.

Record World := {
  messages : gmap string (list Event);
  message_file : file;
  disk : storage;
  clock : nat → Z;
  ticks : nat;
  config : Config;
  log : list log_record;
  journal : list call
}.

(** ** Computations: state, exceptions and [try ... except] *)

Inductive outcome (A : Type) :=
| Return (a : A)
| Raise (e : exn).
Arguments Return {A} a.
Arguments Raise {A} e.

Definition Action (A : Type) : Type := World → outcome A * World.

#[global] Instance Action_ret : MRet Action := fun A a w => (Return a, w).

#[global] Instance Action_bind : MBind Action := fun A B f m w =>
  match m w with
  | (Return a, w') => f a w'
  | (Raise e, w') => (Raise e, w')
  end.

Definition raise {A} (e : exn) : Action A := fun w => (Raise e, w).

(** [try: body except Exception as e: handler(e)]; what [body] did to the
    world before it raised stays done. *)
Definition try_except {A} (body : Action A) (handler : exn → Action A) : Action A :=
  fun w =>
    match body w with
    | (Return a, w') => (Return a, w')
    | (Raise e, w') => handler e w'
    end.

(** [for x in l: body(x)] *)
Fixpoint for_each {A} (l : list A) (body : A → Action unit) : Action unit :=
  match l with
  | [] => mret tt
  | x :: l' => body x;; for_each l' body
  end.

Definition get_messages : Action (gmap string (list Event)) :=
  fun w => (Return (messages w), w).

Definition set_messages (m : gmap string (list Event)) : Action unit :=
  fun w => (Return tt,
    {| messages := m; message_file := message_file w; disk := disk w;
       clock := clock w; ticks := ticks w; config := config w;
       log := log w; journal := journal w |}).

Definition set_message_file (f : file) : Action unit :=
  fun w => (Return tt,
    {| messages := messages w; message_file := f; disk := disk w;
       clock := clock w; ticks := ticks w; config := config w;
       log := log w; journal := journal w |}).

(** [get_plugin_config(get_driver().config)] *)
Definition get_plugin_config : Action Config :=
  fun w => (Return (config w), w).

(** [int(time.time())]: the next reading of the clock. *)
Definition time_time : Action Z :=
  fun w => (Return (clock w (ticks w)),
    {| messages := messages w; message_file := message_file w; disk := disk w;
       clock := clock w; ticks := S (ticks w); config := config w;
       log := log w; journal := journal w |}).

(** [logger.info(...)] and [logger.error(...)] *)
Definition logger (r : log_record) : Action unit :=
  fun w => (Return tt,
    {| messages := messages w; message_file := message_file w; disk := disk w;
       clock := clock w; ticks := ticks w; config := config w;
       log := log w ++ [r]; journal := journal w |}).

Definition note (c : call) : Action unit :=
  fun w => (Return tt,
    {| messages := messages w; message_file := message_file w; disk := disk w;
       clock := clock w; ticks := ticks w; config := config w;
       log := log w; journal := journal w ++ [c] |}).

(** *** The file system and the [json] module *)

(** [os.path.exists(self.message_file)] *)
Definition os_path_exists : Action bool :=
  fun w => (Return (match message_file w with Missing => false | _ => true end), w).

(** [os.makedirs(self.data_dir, exist_ok=True)] *)
Definition os_makedirs : Action unit :=
  fun w => match disk w with
           | MakedirsFails => (Raise OSError, w)
           | _ => (Return tt, w)
           end.

(** [with open(self.message_file, "r") as f: json.load(f)] *)
Definition json_load : Action Json.value :=
  fun w => match message_file w with
           | Missing | Unreadable => (Raise OSError, w)
           | Garbled => (Raise JSONDecodeError, w)
           | Holds doc => (Return (Json.load doc), w)
           end.

(** [with open(self.message_file, "w") as f: json.dump(v, f, ...)] *)
Definition json_dump (v : Json.value) : Action unit :=
  fun w => match disk w with
           | Healthy => set_message_file (Holds (Json.dump v)) w
           | DumpFails => (set_message_file Garbled;; raise OSError) w
           | MakedirsFails | OpenFails => (Raise OSError, w)
           end.

(** [data.values()]: only a dictionary has the method. *)
Definition values (data : Json.value) : Action (list Json.value) :=
  match data with
  | Json.Dict d => mret (map snd d)
  | _ => raise AttributeError
  end.

(** [len(v)]; the length of a string is taken in bytes here, it only
    reaches the log. *)
Definition len (v : Json.value) : Action nat :=
  match v with
  | Json.List l => mret (length l)
  | Json.Dict d => mret (length d)
  | Json.Str s => mret (String.length s)
  | _ => raise TypeError
  end.

(** [sum(f(x) for x in l)] *)
Fixpoint sum_of {A} (f : A → Action nat) (l : list A) : Action nat :=
  match l with
  | [] => mret 0%nat
  | x :: l' => n ← f x; s ← sum_of f l'; mret (n + s)%nat
  end.

(** ** The recorder: [class MessageRecorder] *)

(** How the record of a message is written to the file: the dictionary
    literal of [record_message], key by key. *)
Definition value_of_optional (o : option string) : Json.value :=
  match o with
  | Some s => Json.Str s
  | None => Json.Null
  end.

Definition value_of_event (e : Event) : Json.value :=
  Json.Dict [
    ("time", Json.Int (time e));
    ("user_id", Json.Str (user_id e));
    ("raw_message", Json.Str (raw_message e));
    ("at_list", Json.List (map Json.Str (at_list e)));
    ("is_reply", Json.Bool (is_reply e));
    ("reply_user_id", value_of_optional (reply_user_id e));
    ("group_id", value_of_optional (group_id e));
    ("sender_name", value_of_optional (sender_name e))
  ].

(** [self.messages] as the value [json.dump] receives. *)
Definition value_of_messages (m : gmap string (list Event)) : Json.value :=
  Json.Dict (map (fun p => (p.1, Json.List (map value_of_event p.2))) (map_to_list m)).

(** [_load_messages]: the exception handler covers the reading, the
    decoding and the count for the log. *)
Definition _load_messages : Action Json.value :=
  exists_ ← os_path_exists;
  if negb exists_ then
    logger info_no_history;;
    mret (Json.Dict [])
  else
    try_except
      (data ← json_load;
       n ← (vs ← values data; sum_of len vs);
       logger (info_loaded n);;
       mret data)
      (fun e =>
         logger (error_load_failed e);;
         mret (Json.Dict [])).

(** [_save_messages]: [os.makedirs] stands outside the handler, so its
    failure reaches the caller. *)
Definition _save_messages : Action unit :=
  note save_messages_called;;
  os_makedirs;;
  try_except
    (m ← get_messages;
     json_dump (value_of_messages m))
    (fun e => logger (error_save_failed e)).

(** [loop.run_in_executor(None, self._save_messages)], awaited. *)
Definition _save_messages_async : Action unit := _save_messages.

(** [self.messages.setdefault(u, []).append(message_info)] *)
Definition setdefault_append (u : string) (message_info : Event) : Action unit :=
  m ← get_messages;
  set_messages (<[u := default [] (m !! u) ++ [message_info]]> m);;
  note (appended u message_info).

(** [self.messages[user_id]] *)
Definition getitem (user_id : string) : Action (list Event) :=
  m ← get_messages;
  match m !! user_id with
  | Some l => mret l
  | None => raise KeyError
  end.

(** [_clean_old_messages]: the loop runs over a copy of the keys; the
    order in which it visits them is the map's, not the dictionary's, and
    has no influence on the result. *)
Definition _clean_old_messages : Action unit :=
  now ← time_time;
  cfg ← get_plugin_config;
  let expire_time := now - who_at_me_storage_days cfg * 86400 in
  note (clean_old_messages_called expire_time);;
  m ← get_messages;
  for_each (map fst (map_to_list m)) (fun user_id =>
    l ← getitem user_id;
    m ← get_messages;
    set_messages (<[user_id := filter (fun msg => expire_time < time msg) l]> m);;
    l' ← getitem user_id;
    match l' with
    | [] => m ← get_messages; set_messages (delete user_id m)
    | _ => mret tt
    end).

(** [_record_for_users]; [if reply_user_id:] fails for [None] and for the
    empty string. *)
Definition _record_for_users (at_list : list string) (reply_user_id : option string)
    (message_info : Event) : Action unit :=
  note (record_for_users_called at_list reply_user_id message_info);;
  for_each at_list (fun at_user_id => setdefault_append at_user_id message_info);;
  match reply_user_id with
  | Some u => if decide (u = "") then mret tt else setdefault_append u message_info
  | None => mret tt
  end;;
  _clean_old_messages.

Section recorder.

(** [str(message)], the adapter's rendering of a message. *)
Context (str : list MessageSegment → string).

(** The loop over the segments that collects [at_list]. *)
Definition collect_at_list (message : list MessageSegment) : list string :=
  foldl (fun at_list seg =>
           if decide (seg_type seg = "at") then
             let at_user_id := default "" (seg_data seg !! "qq") in
             if decide (at_user_id = "") then at_list else at_list ++ [at_user_id]
           else at_list)
        [] message.

(** The record built for the replied-to message. *)
Definition reply_message_info (now : Z) (reply_msg : Reply) (group_id : option string) : Event :=
  {| time := now;
     user_id := sender_user_id (reply_sender reply_msg);
     raw_message := str (reply_message reply_msg);
     at_list := [];
     is_reply := false;
     reply_user_id := None;
     sender_name := Py.or_ (card (reply_sender reply_msg)) (nickname (reply_sender reply_msg));
     group_id := group_id |}.

(** The record built for the inbound message itself. *)
Definition message_info (now : Z) (event : MessageEvent) (at_list : list string)
    (is_reply : bool) (reply_user_id : option string) : Event :=
  {| time := now;
     user_id := event_user_id event;
     raw_message := str (event_message event);
     at_list := at_list;
     is_reply := is_reply;
     reply_user_id := reply_user_id;
     group_id := event_group_id event;
     sender_name :=
       match event_group_id event with
       | Some _ => Py.or_ (card (event_sender event)) (nickname (event_sender event))
       | None => nickname (event_sender event)
       end |}.

(** [record_message], the body under [async with self._lock]. *)
Definition record_message (event : MessageEvent) : Action unit :=
  try_except
    (let message := event_message event in
     match message with
     | [] => mret tt
     | _ :: _ =>
       let group_id := event_group_id event in
       let at_list := collect_at_list message in
       '(is_reply, reply_user_id) ←
         match event_reply event with
         | Some reply_msg =>
           now ← time_time;
           _record_for_users [] None (reply_message_info now reply_msg group_id);;
           mret (true, Some (sender_user_id (reply_sender reply_msg)))
         | None => mret (false, None)
         end;
       now ← time_time;
       _record_for_users at_list reply_user_id
         (message_info now event at_list is_reply reply_user_id);;
       _save_messages_async
     end)
    (fun e => logger (error_record_failed e)).

(** [get_at_messages]: sorted newest first, then cut to the maximum. *)
Definition get_at_messages (user_id : string) : Action (list Event) :=
  m ← get_messages;
  match m !! user_id with
  | None => mret []
  | Some l =>
    cfg ← get_plugin_config;
    mret (Py.slice_to (who_at_me_max_messages cfg) (Py.sorted_reverse time l))
  end.

End recorder.

(** ** The query path: [process_query] *)

(** A node of the forwarded message. *)
Record node := {
  name : option string;
  uin : string;
  content : string
}.

(** How [process_query] ends: with [matcher.finish(text)], which sends the
    text and ends the handler by raising [FinishedException] (both handlers
    of [process_query] let it through), or with the call of
    [send_group_forward_msg], when that call returns. *)
Inductive response :=
| finish (text : string)
| send_group_forward_msg (group_id : string) (forward_messages : list node).

(** What a failing call of the API raises. *)
Inductive api_error :=
| ActionFailed
| NetworkError
| ApiNotAvailable.

(** A line [process_query] writes to the plugin's logger, that of [nonebot];
    the recorder's logger is another one, so these lines are not part of
    the recorder's log. *)
Inductive plugin_log_record :=
| info_query_time (seconds : Z)
| error_query_failed (e : api_error).

(** The [GroupMessageEvent] of the command. *)
Record GroupMessageEvent := {
  query_user_id : string;
  query_group_id : string;
  query_message : list MessageSegment;
  query_sender : Sender
}.

(** The condition of the generator expression in [process_query]. *)
Definition asked (user_id current_group_id : string) (msg : Event) : Prop :=
  group_id msg = Some current_group_id ∧
  (user_id ∈ at_list msg ∨ (is_reply msg = true ∧ reply_user_id msg = Some user_id)).

#[global] Instance asked_dec user_id current_group_id msg :
  Decision (asked user_id current_group_id msg).
Proof. unfold asked. apply _. Defined.

(** [filtered_messages], the sequence the query yields. *)
Definition filtered_messages (user_id current_group_id : string) : Action (list Event) :=
  messages ← get_at_messages user_id;
  mret (filter (asked user_id current_group_id) messages).

Definition LF : string := String (Ascii.ascii_of_nat 10) EmptyString.

Section process_query.

(** [str(message)], and the bot: what [bot.call_api("send_group_forward_msg",
    group_id=..., messages=...)] does with a group and a list of nodes, [None]
    when it returns and the error when it raises. *)
Context (str : list MessageSegment → string).
Context (call_api : string → list node → option api_error).

Definition node_of (msg_data : Event) : node :=
  {| name := sender_name msg_data;
     uin := user_id msg_data;
     content := "【" ++ (if is_reply msg_data then "引用了你的消息" else "@了你")
                ++ "】" ++ LF ++ raw_message msg_data |}.

(** [process_query]. The clock is read at the start and once more before
    the forward, in whole seconds. An exception of [bot.call_api] is caught
    by [except Exception]: it is logged and answered with a notice. The
    result is the response together with the lines written to the plugin's
    logger. *)
Definition process_query (event : GroupMessageEvent)
    : Action (response * list plugin_log_record) :=
  let user_id := query_user_id event in
  let current_group_id := query_group_id event in
  start_time ← time_time;
  messages ← get_at_messages user_id;
  match messages with
  | [] => mret (finish "最近没人问你", [])
  | _ :: _ =>
    let filtered_messages := filter (asked user_id current_group_id) messages in
    match filtered_messages with
    | [] => mret (finish "最近在本群没有人问你", [])
    | _ :: _ =>
      let forward_messages :=
        {| name := Py.or_ (card (query_sender event)) (nickname (query_sender event));
           uin := user_id;
           content := str (query_message event) |}
        :: map node_of filtered_messages in
      now ← time_time;
      match call_api current_group_id forward_messages with
      | None =>
        mret (send_group_forward_msg current_group_id forward_messages,
              [info_query_time (now - start_time)])
      | Some e =>
        mret (finish "查询失败，请稍后再试",
              [info_query_time (now - start_time); error_query_failed e])
      end
    end
  end.

End process_query.

(** ** Pure descriptions of what the recorder does to the index *)

(** The index after [message_info] is appended under [u]. *)
Definition with_appended (message_info : Event) (m : gmap string (list Event)) (u : string)
    : gmap string (list Event) :=
  <[u := default [] (m !! u) ++ [message_info]]> m.

(** The recipients [_record_for_users] appends under, in order. *)
Definition recipients (at_list : list string) (reply_user_id : option string) : list string :=
  at_list ++
  match reply_user_id with
  | Some u => if decide (u = "") then [] else [u]
  | None => []
  end.

(** The records of one recipient that are younger than [expire_time]. *)
Definition kept (expire_time : Z) (l : list Event) : list Event :=
  filter (fun msg => expire_time < time msg) l.

(** The index with every list cut down to its kept records and every
    recipient without a kept record gone. *)
Definition retained (expire_time : Z) (m : gmap string (list Event))
    : gmap string (list Event) :=
  omap (fun l => match kept expire_time l with [] => None | l' => Some l' end) m.

(** One round of the loop of [_clean_old_messages], on the index alone. *)
Definition clean_one (expire_time : Z) (m : gmap string (list Event)) (user_id : string)
    : gmap string (list Event) :=
  match kept expire_time (default [] (m !! user_id)) with
  | [] => delete user_id m
  | l' => <[user_id := l']> m
  end.

(** The world with its index, clock position and journal replaced. *)
Definition moved (w : World) (m : gmap string (list Event)) (t : nat) (j : list call) : World :=
  {| messages := m; message_file := message_file w; disk := disk w;
     clock := clock w; ticks := t; config := config w;
     log := log w; journal := j |}.

(** The world after a call of [_save_messages] that left the file as [f]
    and the log as [lg]. *)
Definition saved (w : World) (f : file) (lg : list log_record) : World :=
  {| messages := messages w; message_file := f; disk := disk w;
     clock := clock w; ticks := ticks w; config := config w;
     log := lg; journal := journal w ++ [save_messages_called] |}.

(** The cut-off [_clean_old_messages] computes from the clock reading [now]. *)
Definition expire_time_at (w : World) (now : Z) : Z :=
  now - who_at_me_storage_days (config w) * 86400.

(** How many times [x] occurs in [l]. *)
Definition occurrences {A} `{EqDecision A} (x : A) (l : list A) : nat :=
  length (filter (fun y => y = x) l).

(** The query as the specification words it: the stored records are
    filtered first, then sorted, and only then truncated. *)
Definition query_filter_sort_truncate (max_messages : Z) (stored : list Event)
    (user_id current_group_id : string) : list Event :=
  take (Z.to_nat max_messages)
    (Py.sorted_reverse time (filter (asked user_id current_group_id) stored)).

(** The cut-offs of the prunes a journal records, in order. *)
Definition prunes (j : list call) : list Z :=
  omap (fun c => match c with clean_old_messages_called t => Some t | _ => None end) j.

(** The world with [lg] added to its log. *)
Definition logged (w : World) (lg : list log_record) : World :=
  {| messages := messages w; message_file := message_file w; disk := disk w;
     clock := clock w; ticks := ticks w; config := config w;
     log := log w ++ lg; journal := journal w |}.

(** The world after a restart of the process: the file and the storage as
    they are, nothing in memory yet, an empty log and journal. *)
Definition restarted (w : World) : World :=
  {| messages := ∅; message_file := message_file w; disk := disk w;
     clock := clock w; ticks := ticks w; config := config w;
     log := []; journal := [] |}.

(** ** Concrete scenarios *)

Module Scenario.

Definition text (s : string) : MessageSegment :=
  {| seg_type := "text"; seg_data := {[ "text" := s ]} |}.

Definition at_ (qq : string) : MessageSegment :=
  {| seg_type := "at"; seg_data := {[ "qq" := qq ]} |}.

(** A rendering of messages for the scenarios: the text of the text
    segments, and [@qq] for a mention. *)
Definition str (message : list MessageSegment) : string :=
  foldr (fun seg rest =>
           (if decide (seg_type seg = "at") then "@" +:+ default "" (seg_data seg !! "qq")
            else default "" (seg_data seg !! "text")) +:+ rest)
        "" message.

Definition sender (id nick : string) : Sender :=
  {| sender_user_id := id; card := None; nickname := Some nick |}.

(** A world with the index [m], a healthy disk without a file yet, and a
    clock that reads [now] at every call. *)
Definition world (m : gmap string (list Event)) (now days max_messages : Z) : World :=
  {| messages := m; message_file := Missing; disk := Healthy;
     clock := fun _ => now; ticks := 0;
     config := {| who_at_me_storage_days := days; who_at_me_max_messages := max_messages |};
     log := []; journal := [] |}.

(** U2 replies "ok" at 1000 in G1 to the message "hi" that U1 sent at 900. *)
Definition original : Reply :=
  {| reply_time := 900; reply_sender := sender "U1" "one"; reply_message := [text "hi"] |}.

Definition reply_event : MessageEvent :=
  {| event_user_id := "U2"; event_group_id := Some "G1";
     event_message := [text "ok"]; event_reply := Some original;
     event_sender := sender "U2" "two" |}.

Definition reply_record : Event :=
  {| time := 1000; user_id := "U2"; raw_message := "ok"; at_list := [];
     is_reply := true; reply_user_id := Some "U1"; group_id := Some "G1";
     sender_name := Some "two" |}.

(** The record of the original message as the specification describes it. *)
Definition original_record : Event :=
  {| time := 900; user_id := "U1"; raw_message := "hi"; at_list := [];
     is_reply := false; reply_user_id := None; group_id := Some "G1";
     sender_name := Some "one" |}.

(** The record of the original message as the recorder builds it. *)
Definition synthesized_record : Event :=
  {| time := 1000; user_id := "U1"; raw_message := "hi"; at_list := [];
     is_reply := false; reply_user_id := None; group_id := Some "G1";
     sender_name := Some "one" |}.

Definition empty_world : World := world ∅ 1000 7 10.

(** U was mentioned at 2000 in G2 and at 1000 in G1; at most one record is
    to be returned. *)
Definition mention (t : Z) (g : string) : Event :=
  {| time := t; user_id := "V"; raw_message := "@U"; at_list := ["U"];
     is_reply := false; reply_user_id := None; group_id := Some g;
     sender_name := Some "v" |}.

Definition two_groups : World :=
  world {[ "U" := [mention 2000 "G2"; mention 1000 "G1"] ]} 3000 7 1.

(** A record of day 0 is still stored under U on day 10, the window is one
    day, and U3 says "hello" without a mention or a reply. *)
Definition stale_world : World := world {[ "U" := [mention 0 "G1"] ]} 864000 1 10.

Definition plain_event : MessageEvent :=
  {| event_user_id := "U3"; event_group_id := Some "G1";
     event_message := [text "hello"]; event_reply := None;
     event_sender := sender "U3" "three" |}.

(** U2 mentions U1 in a reply to a message of U1. *)
Definition mention_and_reply : MessageEvent :=
  {| event_user_id := "U2"; event_group_id := Some "G1";
     event_message := [at_ "U1"; text "ok"]; event_reply := Some original;
     event_sender := sender "U2" "two" |}.

(** U1 says "hello @U2" in G1; a mention segment without a target follows. *)
Definition hello_event : MessageEvent :=
  {| event_user_id := "U1"; event_group_id := Some "G1";
     event_message := [text "hello "; at_ "U2"; at_ ""]; event_reply := None;
     event_sender := sender "U1" "one" |}.

Definition hello_record : Event :=
  {| time := 1000; user_id := "U1"; raw_message := "hello @U2@"; at_list := ["U2"];
     is_reply := false; reply_user_id := None; group_id := Some "G1";
     sender_name := Some "one" |}.

End Scenario.

(** ** A pure description of one call of [record_message] *)

(** The identity [record_message] takes as the reply target. *)
Definition reply_target (event : MessageEvent) : option string :=
  (fun reply_msg => sender_user_id (reply_sender reply_msg)) <$> event_reply event.

(** The position of the clock at which the time of the message's own record
    is read: a reply has read the clock twice before. *)
Definition record_tick (event : MessageEvent) (w : World) : nat :=
  match event_reply event with
  | Some _ => S (S (ticks w))
  | None => ticks w
  end.

(** The cut-off of the prune that follows the appends of the message. *)
Definition last_cutoff (event : MessageEvent) (w : World) : Z :=
  expire_time_at w (clock w (S (record_tick event w))).

(** The index the appends of the message are made to: for a reply it has
    been pruned once already. *)
Definition index_before_appends (event : MessageEvent) (w : World)
    : gmap string (list Event) :=
  match event_reply event with
  | Some _ => retained (expire_time_at w (clock w (S (ticks w)))) (messages w)
  | None => messages w
  end.

Section recorded.
Context (str : list MessageSegment → string).

(** The record of the message itself. *)
Definition recorded (event : MessageEvent) (w : World) : Event :=
  message_info str (clock w (record_tick event w)) event
    (collect_at_list (event_message event))
    (match event_reply event with Some _ => true | None => false end)
    (reply_target event).

(** The index after the message is recorded. *)
Definition index_after (event : MessageEvent) (w : World) : gmap string (list Event) :=
  retained (last_cutoff event w)
    (foldl (with_appended (recorded event w)) (index_before_appends event w)
       (recipients (collect_at_list (event_message event)) (reply_target event))).

End recorded.

(** Further concrete cases. *)

Module Cases.

(** An empty index with a retention window of zero days. *)
Definition zero_window : World := Scenario.world ∅ 1000 0 10.

(** The two-groups index on a disk where writing fails after the file was
    opened; the file still holds an earlier, empty, document. *)
Definition failing_disk : World :=
  {| messages := messages Scenario.two_groups;
     message_file := Holds (Json.JObject []);
     disk := DumpFails;
     clock := fun _ => 3000; ticks := 0;
     config := config Scenario.two_groups;
     log := []; journal := [] |}.

End Cases.

(** * Properties *)

(** ** The [json] round trip on values *)

Module JsonFacts.
Import Json.

(** Induction on values that reaches inside lists and dictionaries. *)
Lemma value_nested_ind (P : value → Prop) :
  P Null →
  (∀ b, P (Bool b)) →
  (∀ z, P (Int z)) →
  (∀ s, P (Str s)) →
  (∀ l, Forall P l → P (List l)) →
  (∀ d, Forall (fun p => P p.2) d → P (Dict d)) →
  ∀ v, P v.
Proof.
  intros HNull HBool HInt HStr HList HDict.
  fix IH 1. intros [ | b | z | s | l | d].
  - exact HNull.
  - apply HBool.
  - apply HInt.
  - apply HStr.
  - apply HList. revert l. fix IHl 1. intros [ | x l].
    + constructor.
    + constructor; [apply IH | apply IHl].
  - apply HDict. revert d. fix IHd 1. intros [ | [k x] d].
    + constructor.
    + constructor; [apply IH | apply IHd].
Qed.

Lemma wf_List l : wf (List l) ↔ Forall wf l.
Proof.
  simpl. induction l as [ | x l IHl]; simpl.
  - split; [constructor | done].
  - rewrite Forall_cons. tauto.
Qed.

Lemma wf_Dict d : wf (Dict d) ↔ NoDup (map fst d) ∧ Forall (fun p => wf p.2) d.
Proof.
  simpl. apply and_iff_compat_l.
  induction d as [ | p d IHd]; simpl.
  - split; [constructor | done].
  - rewrite Forall_cons. tauto.
Qed.

Lemma setitem_fresh {A} (k : string) (v : A) d :
  k ∉ map fst d → setitem k v d = d ++ [(k, v)].
Proof.
  induction d as [ | [k' v'] d IHd]; simpl; intros Hk; [done | ].
  rewrite not_elem_of_cons in Hk. destruct Hk as [Hne Hk].
  destruct (decide (k = k')) as [-> | _]; [done | ].
  by rewrite IHd.
Qed.

Lemma foldl_setitem_fresh {A} (d ps : list (string * A)) :
  NoDup (map fst (d ++ ps)) →
  foldl (fun d p => setitem p.1 p.2 d) d ps = d ++ ps.
Proof.
  revert d. induction ps as [ | [k v] ps IHps]; intros d Hnd; simpl.
  - by rewrite app_nil_r.
  - rewrite setitem_fresh.
    + rewrite IHps; rewrite <- app_assoc; [done | exact Hnd].
    + rewrite map_app in Hnd. apply NoDup_app in Hnd as (_ & Hdisj & _).
      intros Hin. apply (Hdisj k Hin). simpl. left.
Qed.

(** A list of pairs with distinct keys is the dictionary built from it. *)
Lemma dict_of_pairs_NoDup {A} (ps : list (string * A)) :
  NoDup (map fst ps) → dict_of_pairs ps = ps.
Proof. intros Hnd. unfold dict_of_pairs. by rewrite foldl_setitem_fresh. Qed.

(** Loading the document of a value gives the value back. *)
Lemma load_dump v : wf v → load (dump v) = v.
Proof.
  induction v as [ | b | z | s | l IHl | d IHd] using value_nested_ind;
    intros Hwf; try reflexivity.
  - apply wf_List in Hwf. simpl. f_equal.
    rewrite map_map. induction l as [ | x l IH]; [done | ].
    apply Forall_cons in IHl as [Hx IHl]. apply Forall_cons in Hwf as [Hwx Hwf].
    simpl. by rewrite Hx, IH.
  - apply wf_Dict in Hwf as [Hnd Hwf]. simpl. f_equal.
    rewrite map_map. simpl.
    assert (Heq : map (fun p : string * value => (p.1, load (dump p.2))) d = d).
    { clear Hnd. induction d as [ | [k x] d IH]; [done | ].
      apply Forall_cons in IHd as [Hx IHd]. apply Forall_cons in Hwf as [Hwx Hwf].
      simpl in *. by rewrite Hx, IH. }
    rewrite Heq. by apply dict_of_pairs_NoDup.
Qed.

End JsonFacts.

(** ** The built-ins: [sorted(..., reverse=True)] and slicing *)

Module PyFacts.
Import Py.

Section sorted.
Context {A : Type} (key : A → Z).

Lemma Forall_filter_keep (Q P : A → Prop) `{!∀ x, Decision (P x)} l :
  Forall Q l → Forall Q (filter P l).
Proof.
  rewrite !Forall_forall. intros HQ x Hx.
  apply HQ. by apply list_elem_of_filter in Hx as [_ ?].
Qed.

Lemma insert_reverse_perm x l : insert_reverse key x l ≡ₚ x :: l.
Proof.
  induction l as [ | y l IHl]; simpl; [done | ].
  case_decide; [ | done].
  rewrite IHl. apply Permutation_swap.
Qed.

Lemma sorted_reverse_perm l : sorted_reverse key l ≡ₚ l.
Proof.
  induction l as [ | x l IHl]; simpl; [done | ].
  by rewrite insert_reverse_perm, IHl.
Qed.

(** In front of records that are not newer, a record stays in front. *)
Lemma insert_reverse_front x l :
  Forall (fun y => key y ≤ key x) l → insert_reverse key x l = x :: l.
Proof.
  destruct l as [ | y l]; simpl; [done | ].
  intros [Hy _]%Forall_cons. case_decide; [lia | done].
Qed.

Lemma insert_reverse_sorted x l :
  StronglySorted (descending key) l → StronglySorted (descending key) (insert_reverse key x l).
Proof.
  induction 1 as [ | y l Hl IHl Hy]; simpl.
  - repeat constructor.
  - case_decide as Hlt.
    + constructor; [done | ].
      rewrite insert_reverse_perm. constructor; [unfold descending; lia | done].
    + constructor; [by constructor | ].
      constructor; [unfold descending; lia | ].
      eapply Forall_impl; [exact Hy | ]. unfold descending. simpl. lia.
Qed.

Lemma sorted_reverse_sorted l : StronglySorted (descending key) (sorted_reverse key l).
Proof.
  induction l as [ | x l IHl]; simpl; [constructor | ].
  by apply insert_reverse_sorted.
Qed.

Lemma filter_insert_reverse (P : A → Prop) `{!∀ x, Decision (P x)} x l :
  StronglySorted (descending key) l →
  filter P (insert_reverse key x l) =
    if decide (P x) then insert_reverse key x (filter P l) else filter P l.
Proof.
  induction 1 as [ | y l Hl IHl Hy]; simpl.
  - rewrite filter_cons, filter_nil. by case_decide.
  - destruct (decide (key x < key y)) as [Hlt | Hge].
    + rewrite !(filter_cons _ y), IHl.
      destruct (decide (P y)), (decide (P x)); simpl; try done.
      by rewrite decide_True.
    + rewrite filter_cons. destruct (decide (P x)); [ | done].
      rewrite insert_reverse_front; [done | ].
      apply Forall_filter_keep. constructor; [lia | ].
      eapply Forall_impl; [exact Hy | ]. unfold descending. simpl. lia.
Qed.

(** Sorting commutes with filtering: the order among the records that pass
    a filter does not depend on the records that do not. *)
Lemma filter_sorted_reverse (P : A → Prop) `{!∀ x, Decision (P x)} l :
  filter P (sorted_reverse key l) = sorted_reverse key (filter P l).
Proof.
  induction l as [ | x l IHl]; simpl; [done | ].
  rewrite filter_insert_reverse by apply sorted_reverse_sorted.
  rewrite filter_cons, IHl. by case_decide.
Qed.

Lemma sorted_reverse_same_key t l :
  Forall (fun x => key x = t) l → sorted_reverse key l = l.
Proof.
  induction 1 as [ | x l Hx Hl IHl]; simpl; [done | ].
  rewrite IHl. apply insert_reverse_front.
  eapply Forall_impl; [exact Hl | ]. simpl. lia.
Qed.

(** Stability: records of one key keep their original order. *)
Lemma sorted_reverse_stable t l :
  filter (fun x => key x = t) (sorted_reverse key l) = filter (fun x => key x = t) l.
Proof.
  rewrite filter_sorted_reverse. apply (sorted_reverse_same_key t).
  apply Forall_forall. intros x Hx. by apply list_elem_of_filter in Hx as [? _].
Qed.

End sorted.

Lemma slice_to_length {A} (n : Z) (l : list A) :
  0 ≤ n → (length (slice_to n l) ≤ Z.to_nat n)%nat.
Proof. intros Hn. unfold slice_to. rewrite decide_True by done. rewrite length_take. lia. Qed.

Lemma slice_to_all {A} (n : Z) (l : list A) :
  Z.of_nat (length l) ≤ n → slice_to n l = l.
Proof.
  intros Hn. unfold slice_to. rewrite decide_True by lia. apply take_ge. lia.
Qed.

End PyFacts.

(** ** The recorder, step by step *)

Lemma moved_id w : moved w (messages w) (ticks w) (journal w) = w.
Proof. by destruct w. Qed.

Lemma for_each_setdefault_append us e w :
  for_each us (fun u => setdefault_append u e) w =
  (Return tt, moved w (foldl (with_appended e) (messages w) us) (ticks w)
                (journal w ++ map (fun u => appended u e) us)).
Proof.
  revert w. induction us as [ | u us IHus]; intros w; simpl.
  - rewrite app_nil_r, moved_id. done.
  - unfold mbind, Action_bind at 1. unfold setdefault_append at 1.
    unfold mbind, Action_bind, get_messages, set_messages, note. simpl.
    rewrite IHus. simpl. unfold moved. simpl. rewrite <- app_assoc. done.
Qed.

Lemma moved_moved w m t j m' t' j' : moved (moved w m t j) m' t' j' = moved w m' t' j'.
Proof. done. Qed.

Lemma lookup_retained c m u :
  retained c m !! u = match kept c (default [] (m !! u)) with [] => None | l' => Some l' end.
Proof.
  unfold retained. rewrite lookup_omap. destruct (m !! u) as [l | ]; simpl; [done | ].
  done.
Qed.

Lemma lookup_clean_one c m k u :
  clean_one c m k !! u = if decide (u = k) then retained c m !! u else m !! u.
Proof.
  rewrite lookup_retained. unfold clean_one.
  destruct (decide (u = k)) as [-> | Hne].
  - destruct (kept c (default [] (m !! k))); [apply lookup_delete_eq | apply lookup_insert_eq].
  - destruct (kept c (default [] (m !! k))); [by apply lookup_delete_ne | by apply lookup_insert_ne].
Qed.

Lemma lookup_foldl_clean_one c ks m u :
  NoDup ks →
  foldl (clean_one c) m ks !! u = if decide (u ∈ ks) then retained c m !! u else m !! u.
Proof.
  intros Hnd. revert m. induction Hnd as [ | k ks Hk Hnd IH]; intros m; simpl.
  - done.
  - rewrite IH. destruct (decide (u ∈ ks)) as [Hin | Hnin].
    + rewrite decide_True by (by right).
      rewrite !lookup_retained, lookup_clean_one.
      rewrite decide_False; [done | ]. intros ->. done.
    + rewrite lookup_clean_one. destruct (decide (u = k)) as [-> | Hne].
      * rewrite decide_True; [done | left].
      * rewrite decide_False; [done | ]. rewrite elem_of_cons. tauto.
Qed.

Lemma foldl_clean_one_keys c m :
  foldl (clean_one c) m (map fst (map_to_list m)) = retained c m.
Proof.
  apply map_eq. intros u.
  rewrite lookup_foldl_clean_one by apply NoDup_fst_map_to_list.
  case_decide as Hin; [done | ].
  rewrite lookup_retained.
  destruct (m !! u) as [l | ] eqn:Hu; [ | done].
  exfalso. apply Hin. apply list_elem_of_fmap. exists (u, l). split; [done | ].
  by apply elem_of_map_to_list.
Qed.

Lemma clean_loop c ks w :
  NoDup ks → (∀ k, k ∈ ks → is_Some (messages w !! k)) →
  for_each ks (fun user_id =>
    l ← getitem user_id;
    m ← get_messages;
    set_messages (<[user_id := filter (fun msg => c < time msg) l]> m);;
    l' ← getitem user_id;
    match l' with
    | [] => m ← get_messages; set_messages (delete user_id m)
    | _ => mret tt
    end) w =
  (Return tt, moved w (foldl (clean_one c) (messages w) ks) (ticks w) (journal w)).
Proof.
  intros Hnd. revert w. induction Hnd as [ | k ks Hk Hnd IH]; intros w Hdom; simpl.
  - by rewrite moved_id.
  - destruct (Hdom k) as [l Hl]; [left | ].
    unfold mbind at 1, Action_bind at 1.
    unfold mbind at 1, Action_bind at 1. unfold getitem at 1.
    unfold mbind at 1, Action_bind at 1. unfold get_messages at 1.
    rewrite Hl. unfold mret at 1, Action_ret at 1.
    unfold mbind at 1, Action_bind at 1. unfold get_messages at 1.
    unfold mbind at 1, Action_bind at 1. unfold set_messages at 1.
    unfold mbind at 1, Action_bind at 1. unfold getitem at 1.
    unfold mbind at 1, Action_bind at 1. unfold get_messages at 1.
    cbn [messages]. rewrite lookup_insert_eq.
    unfold mret at 1, Action_ret at 1.
    assert (Hone : clean_one c (messages w) k =
                   match filter (fun msg => c < time msg) l with
                   | [] => delete k (<[k := filter (fun msg => c < time msg) l]> (messages w))
                   | _ => <[k := filter (fun msg => c < time msg) l]> (messages w)
                   end).
    { unfold clean_one, kept. rewrite Hl. simpl.
      destruct (filter _ l); [by rewrite delete_insert_eq | done]. }
    destruct (filter (fun msg => c < time msg) l) as [ | x l'] eqn:Hf.
    + unfold mbind at 1, Action_bind at 1. unfold get_messages at 1.
      unfold set_messages at 1. cbn [messages message_file disk clock ticks config log journal].
      rewrite IH.
      * cbn [messages]. rewrite <- Hone. done.
      * cbn [messages]. intros k' Hk'. rewrite <- Hone, lookup_clean_one.
        rewrite decide_False by (intros ->; done). apply Hdom. by right.
    + unfold mret at 1, Action_ret at 1. rewrite IH.
      * cbn [messages]. rewrite <- Hone. done.
      * cbn [messages]. intros k' Hk'. rewrite <- Hone, lookup_clean_one.
        rewrite decide_False by (intros ->; done). apply Hdom. by right.
Qed.

Lemma clean_old_messages_run w :
  _clean_old_messages w =
  (Return tt,
   moved w (retained (expire_time_at w (clock w (ticks w))) (messages w)) (S (ticks w))
     (journal w ++ [clean_old_messages_called (expire_time_at w (clock w (ticks w)))])).
Proof.
  unfold _clean_old_messages.
  unfold mbind at 1, Action_bind at 1. unfold time_time at 1.
  unfold mbind at 1, Action_bind at 1. unfold get_plugin_config at 1.
  cbn [config].
  unfold mbind at 1, Action_bind at 1. unfold note at 1.
  unfold mbind at 1, Action_bind at 1. unfold get_messages at 1.
  cbn [messages].
  rewrite clean_loop.
  - cbn [messages ticks journal]. rewrite foldl_clean_one_keys. done.
  - apply NoDup_fst_map_to_list.
  - cbn [messages]. intros k Hk. apply list_elem_of_fmap in Hk as ([k' l] & -> & Hin).
    apply elem_of_map_to_list in Hin. by exists l.
Qed.

Lemma record_for_users_run at_list reply_user_id e w :
  let m := foldl (with_appended e) (messages w) (recipients at_list reply_user_id) in
  let c := expire_time_at w (clock w (ticks w)) in
  _record_for_users at_list reply_user_id e w =
  (Return tt,
   moved w (retained c m) (S (ticks w))
     (journal w ++ record_for_users_called at_list reply_user_id e
        :: map (fun u => appended u e) (recipients at_list reply_user_id)
        ++ [clean_old_messages_called c])).
Proof.
  intros m c. subst m c. unfold _record_for_users, recipients.
  unfold mbind at 1, Action_bind at 1. unfold note at 1.
  unfold mbind at 1, Action_bind at 1. rewrite for_each_setdefault_append.
  cbn [messages ticks journal].
  unfold mbind at 1, Action_bind at 1.
  destruct reply_user_id as [u | ]; [destruct (decide (u = "")) as [Hu | Hu] | ].
  - unfold mret at 1, Action_ret at 1. rewrite clean_old_messages_run.
    rewrite !app_nil_r. unfold moved, expire_time_at. cbn. rewrite <- !app_assoc. done.
  - unfold setdefault_append at 1.
    unfold mbind at 1, Action_bind at 1. unfold get_messages at 1.
    unfold mbind at 1, Action_bind at 1. unfold set_messages at 1.
    unfold note at 1.
    rewrite clean_old_messages_run.
    rewrite foldl_app, map_app. unfold moved, expire_time_at. cbn. rewrite <- !app_assoc. done.
  - unfold mret at 1, Action_ret at 1. rewrite clean_old_messages_run.
    rewrite !app_nil_r. unfold moved, expire_time_at. cbn. rewrite <- !app_assoc. done.
Qed.

Lemma save_messages_run w :
  _save_messages w =
  match disk w with
  | Healthy =>
      (Return tt, saved w (Holds (Json.dump (value_of_messages (messages w)))) (log w))
  | MakedirsFails => (Raise OSError, saved w (message_file w) (log w))
  | OpenFails => (Return tt, saved w (message_file w) (log w ++ [error_save_failed OSError]))
  | DumpFails => (Return tt, saved w Garbled (log w ++ [error_save_failed OSError]))
  end.
Proof. destruct w as [m f d cl t cf lg j]. by destruct d. Qed.

Section recorder_facts.
Context (str : list MessageSegment → string).

Lemma record_message_empty event w :
  event_message event = [] → record_message str event w = (Return tt, w).
Proof. intros Hm. unfold record_message, try_except. by rewrite Hm. Qed.

Lemma record_message_no_reply event w :
  event_message event ≠ [] → event_reply event = None →
  let at_list := collect_at_list (event_message event) in
  let info := message_info str (clock w (ticks w)) event at_list false None in
  let c := expire_time_at w (clock w (S (ticks w))) in
  ∃ f lg,
    record_message str event w =
    (Return tt,
     saved (moved w (retained c (foldl (with_appended info) (messages w) (recipients at_list None)))
              (S (S (ticks w)))
              (journal w ++ record_for_users_called at_list None info
                 :: map (fun u => appended u info) (recipients at_list None)
                 ++ [clean_old_messages_called c])) f lg).
Proof.
  intros Hm Hr at_list info c. unfold record_message, try_except.
  destruct (event_message event) as [ | seg segs] eqn:Hmsg; [done | ].
  rewrite Hr.
  unfold mbind at 1, Action_bind at 1. unfold mret at 1, Action_ret at 1.
  unfold mbind at 1, Action_bind at 1. unfold time_time at 1.
  unfold mbind at 1, Action_bind at 1. rewrite record_for_users_run.
  unfold _save_messages_async. rewrite save_messages_run.
  cbn [disk moved messages ticks journal clock config log message_file].
  fold at_list. fold info.
  destruct (disk w) eqn:Hd; eexists _, _; unfold saved, moved, logger; cbn; rewrite ?Hd; reflexivity.
Qed.

Lemma record_message_reply event reply_msg w :
  event_message event ≠ [] → event_reply event = Some reply_msg →
  let t := ticks w in
  let at_list := collect_at_list (event_message event) in
  let u := sender_user_id (reply_sender reply_msg) in
  let rinfo := reply_message_info str (clock w t) reply_msg (event_group_id event) in
  let c1 := expire_time_at w (clock w (S t)) in
  let info := message_info str (clock w (S (S t))) event at_list true (Some u) in
  let c2 := expire_time_at w (clock w (S (S (S t)))) in
  ∃ f lg,
    record_message str event w =
    (Return tt,
     saved (moved w
              (retained c2 (foldl (with_appended info) (retained c1 (messages w))
                              (recipients at_list (Some u))))
              (S (S (S (S t))))
              (journal w
                 ++ [record_for_users_called [] None rinfo; clean_old_messages_called c1]
                 ++ record_for_users_called at_list (Some u) info
                 :: map (fun u => appended u info) (recipients at_list (Some u))
                 ++ [clean_old_messages_called c2])) f lg).
Proof.
  intros Hm Hr t at_list u rinfo c1 info c2. unfold record_message, try_except.
  destruct (event_message event) as [ | seg segs] eqn:Hmsg; [done | ].
  rewrite Hr.
  unfold mbind at 1, Action_bind at 1.
  unfold mbind at 1, Action_bind at 1. unfold time_time at 1.
  unfold mbind at 1, Action_bind at 1. rewrite record_for_users_run.
  unfold mret at 1, Action_ret at 1.
  unfold mbind at 1, Action_bind at 1. unfold time_time at 1.
  unfold mbind at 1, Action_bind at 1. rewrite record_for_users_run.
  unfold _save_messages_async. rewrite save_messages_run.
  cbn [disk moved messages ticks journal clock config log message_file recipients
       foldl map app].
  fold t. fold at_list. fold u. fold rinfo. fold info.
  destruct (disk w) eqn:Hd; eexists _, _; unfold saved, moved, logger; cbn;
    rewrite ?Hd, <- ?app_assoc; reflexivity.
Qed.

End recorder_facts.

(** *** What the appends of one call leave under a recipient *)

Lemma occurrences_cons {A} `{EqDecision A} (x y : A) l :
  occurrences x (y :: l) = if decide (y = x) then S (occurrences x l) else occurrences x l.
Proof. unfold occurrences. rewrite filter_cons. by case_decide. Qed.

Lemma occurrences_app {A} `{EqDecision A} (x : A) l1 l2 :
  occurrences x (l1 ++ l2) = (occurrences x l1 + occurrences x l2)%nat.
Proof. unfold occurrences. by rewrite filter_app, length_app. Qed.

Lemma occurrences_elem_of {A} `{EqDecision A} (x : A) l :
  x ∈ l → (1 ≤ occurrences x l)%nat.
Proof.
  induction 1 as [x l | x y l Hin IH]; rewrite occurrences_cons.
  - rewrite decide_True by done. lia.
  - case_decide; lia.
Qed.

Lemma occurrences_replicate {A} `{EqDecision A} (x : A) n :
  occurrences x (replicate n x) = n.
Proof.
  induction n as [ | n IHn]; [done | ].
  simpl. rewrite occurrences_cons, decide_True by done. by rewrite IHn.
Qed.

Lemma occurrences_perm {A} `{EqDecision A} (x : A) l1 l2 :
  l1 ≡ₚ l2 → occurrences x l1 = occurrences x l2.
Proof. intros Hp. unfold occurrences. by rewrite Hp. Qed.

Lemma lookup_foldl_with_appended e us m u :
  foldl (with_appended e) m us !! u =
  match occurrences u us with
  | O => m !! u
  | S _ => Some (default [] (m !! u) ++ replicate (occurrences u us) e)
  end.
Proof.
  revert m. induction us as [ | k us IHus]; intros m; [done | ].
  cbn [foldl]. rewrite IHus, occurrences_cons. unfold with_appended.
  destruct (decide (k = u)) as [-> | Hne].
  - rewrite lookup_insert_eq. cbn [default].
    destruct (occurrences u us) as [ | n]; cbn [replicate].
    + done.
    + unfold id. by rewrite <- app_assoc.
  - by rewrite lookup_insert_ne.
Qed.

Lemma kept_app c l1 l2 : kept c (l1 ++ l2) = kept c l1 ++ kept c l2.
Proof. apply filter_app. Qed.

Lemma kept_replicate c n e : c < time e → kept c (replicate n e) = replicate n e.
Proof.
  intros He. unfold kept. induction n as [ | n IHn]; [done | ].
  cbn [replicate]. by rewrite filter_cons_True, IHn.
Qed.

(** ** Retention *)

(** C6. For every index, retention window and clock reading,
    [_clean_old_messages] returns normally and leaves under every recipient
    exactly its records with [time > now - storage_days * 86400], in their
    stored order; a recipient whose list becomes empty, and only such a
    recipient, is removed from the index. *)
Theorem C6_clean_old_messages_retains (w : World) :
  let now := clock w (ticks w) in
  let expire_time := now - who_at_me_storage_days (config w) * 86400 in
  ∃ w', _clean_old_messages w = (Return tt, w') ∧
    ∀ u, messages w' !! u =
         match messages w !! u with
         | Some l =>
           match filter (fun msg => expire_time < time msg) l with
           | [] => None
           | l' => Some l'
           end
         | None => None
         end.
Proof.
  intros now expire_time. rewrite clean_old_messages_run.
  eexists. split; [reflexivity | ]. intros u. cbn [messages moved].
  rewrite lookup_retained. unfold expire_time_at, kept. fold now. fold expire_time.
  by destruct (messages w !! u).
Qed.

(** ** The persistence store *)

Lemma sum_of_len_frame vs w : ∃ o, sum_of len vs w = (o, w).
Proof.
  induction vs as [ | v vs [o IH]]; [by eexists | ].
  cbn [sum_of]. unfold mbind at 1, Action_bind at 1.
  destruct v; cbn; try (by eexists).
  - unfold mbind, Action_bind. rewrite IH. destruct o; by eexists.
  - unfold mbind, Action_bind. rewrite IH. destruct o; by eexists.
  - unfold mbind, Action_bind. rewrite IH. destruct o; by eexists.
Qed.


Lemma value_of_optional_inj o1 o2 : value_of_optional o1 = value_of_optional o2 → o1 = o2.
Proof. destruct o1, o2; simpl; congruence. Qed.

Lemma map_Str_inj (l1 l2 : list string) : map Json.Str l1 = map Json.Str l2 → l1 = l2.
Proof.
  revert l2. induction l1 as [ | x l1 IH]; intros [ | y l2] Heq; try done.
  simpl in Heq. injection Heq as -> Heq. f_equal. by apply IH.
Qed.

Lemma value_of_event_inj e1 e2 : value_of_event e1 = value_of_event e2 → e1 = e2.
Proof.
  destruct e1, e2. unfold value_of_event. cbn.
  intros [= Ht Hu Hm Hat Hi Hr Hg Hs].
  apply map_Str_inj in Hat.
  apply value_of_optional_inj in Hr, Hg, Hs. by subst.
Qed.

Lemma map_value_of_event_inj l1 l2 :
  map value_of_event l1 = map value_of_event l2 → l1 = l2.
Proof.
  revert l2. induction l1 as [ | x l1 IH]; intros [ | y l2] Heq; try done.
  cbn [map] in Heq. apply (inj2 cons) in Heq as [Hxy Heq] || (injection Heq as Hxy Heq).
  f_equal; [by apply value_of_event_inj | by apply IH].
Qed.

(** The value written for an index determines the index: its recipients,
    the records of each and their order. *)
Lemma value_of_messages_inj m1 m2 :
  value_of_messages m1 = value_of_messages m2 → m1 = m2.
Proof.
  unfold value_of_messages. intros Heq. injection Heq as Heq.
  rewrite <- (list_to_map_to_list m1), <- (list_to_map_to_list m2). f_equal.
  revert Heq. generalize (map_to_list m1) (map_to_list m2).
  induction l as [ | [k1 l1] ps1 IH]; intros [ | [k2 l2] ps2] Heq; try done.
  simpl in Heq. injection Heq as -> Hl Heq.
  apply map_value_of_event_inj in Hl as ->. f_equal. by apply IH.
Qed.

Lemma wf_value_of_optional o : Json.wf (value_of_optional o).
Proof. by destruct o. Qed.

Lemma wf_value_of_event e : Json.wf (value_of_event e).
Proof.
  apply JsonFacts.wf_Dict. split.
  - cbn. apply (bool_decide_unpack _). by vm_compute.
  - repeat constructor; cbn; try apply wf_value_of_optional.
    apply JsonFacts.wf_List. apply Forall_forall. intros v Hv.
    apply list_elem_of_fmap in Hv as (s & -> & _). done.
Qed.

Lemma wf_value_of_messages m : Json.wf (value_of_messages m).
Proof.
  apply JsonFacts.wf_Dict. split.
  - rewrite map_map. cbn. apply NoDup_fst_map_to_list.
  - apply Forall_forall. intros p Hp.
    apply list_elem_of_fmap in Hp as ([k l] & -> & _). cbn.
    apply JsonFacts.wf_List. apply Forall_forall. intros v Hv.
    apply list_elem_of_fmap in Hv as (e & -> & _). apply wf_value_of_event.
Qed.

Lemma sum_of_len_Lists (ls : list (list Json.value)) (w : World) :
  sum_of len (map Json.List ls) w = (Return (sum_list_with length ls), w).
Proof.
  induction ls as [ | l ls IH]; [done | ].
  cbn [map sum_of sum_list_with]. unfold mbind at 1, Action_bind at 1. cbn [len].
  unfold mret at 1, Action_ret at 1. unfold mbind at 1, Action_bind at 1.
  by rewrite IH.
Qed.

(** Loading a file that holds the document of an index returns the value of
    that index and logs the number of its records, a record counted once for
    every recipient it is stored under. *)
Lemma load_messages_of_dump (m : gmap string (list Event)) (w : World) :
  message_file w = Holds (Json.dump (value_of_messages m)) →
  _load_messages w =
  (Return (value_of_messages m),
   logged w [info_loaded (sum_list_with (fun p => length p.2) (map_to_list m))]).
Proof.
  intros Hf. unfold _load_messages.
  unfold mbind at 1, Action_bind at 1. unfold os_path_exists. rewrite Hf. cbn [negb].
  unfold try_except, mbind at 1, Action_bind at 1, json_load. rewrite Hf.
  rewrite JsonFacts.load_dump by apply wf_value_of_messages.
  unfold mbind at 1, Action_bind at 1.
  unfold mbind at 1, Action_bind at 1.
  unfold value_of_messages at 1. cbn [values].
  unfold mret at 1, Action_ret at 1.
  rewrite map_map. cbn [snd].
  rewrite <- (map_map (fun p : string * list Event => map value_of_event p.2) Json.List).
  rewrite sum_of_len_Lists.
  assert (Hn : sum_list_with length
                 (map (fun p : string * list Event => map value_of_event p.2) (map_to_list m))
               = sum_list_with (fun p => length p.2) (map_to_list m)).
  { induction (map_to_list m) as [ | p ps IH]; [done | ].
    cbn [map sum_list_with]. by rewrite IH, length_map. }
  rewrite Hn. reflexivity.
Qed.

(** C7. When the storage accepts the write, [_save_messages] leaves a file
    from which [_load_messages] returns the value of the index that was
    saved, in whatever world the file is read, also after a restart with
    nothing in memory. That value determines the index: the same
    recipients, under each the same records with the same field values,
    optional ones absent where they were absent, in the same order. Saving
    does not touch the index in memory, and loading only adds to the log. *)
Theorem C7_save_then_load (w : World) :
  disk w = Healthy →
  ∃ w1,
    _save_messages w = (Return tt, w1) ∧
    messages w1 = messages w ∧
    (∀ w2, message_file w2 = message_file w1 →
       ∃ lg, _load_messages w2 =
               (Return (value_of_messages (messages w)), logged w2 lg)) ∧
    ∀ m, value_of_messages m = value_of_messages (messages w) → m = messages w.
Proof.
  intros Hd. rewrite save_messages_run, Hd.
  eexists. split; [reflexivity | ]. split; [done | ]. split.
  - intros w2 Hf. cbn [message_file saved] in Hf.
    eexists. by apply load_messages_of_dump.
  - intros m Hm. by apply value_of_messages_inj.
Qed.

(** C7 at a world with a healthy disk and two records stored under U: the
    file is read after a restart, with an empty index in memory. *)
Lemma C7_save_then_load_witness :
  disk Scenario.two_groups = Healthy ∧
  ∃ w1,
    _save_messages Scenario.two_groups = (Return tt, w1) ∧
    messages (restarted w1) = ∅ ∧
    ∃ lg, _load_messages (restarted w1) =
            (Return (value_of_messages (messages Scenario.two_groups)),
             logged (restarted w1) lg).
Proof.
  split; [reflexivity | ].
  destruct (C7_save_then_load Scenario.two_groups) as (w1 & Hsave & _ & Hload & _);
    [reflexivity | ].
  exists w1. split; [exact Hsave | ]. split; [reflexivity | ].
  apply Hload. reflexivity.
Defined.

(** ** The write path *)

Lemma collect_at_list_no_at message :
  Forall (fun seg => seg_type seg ≠ "at") message → collect_at_list message = [].
Proof.
  unfold collect_at_list. intros Hno. generalize (@nil string).
  induction Hno as [ | seg message Hseg _ IH]; intros acc; cbn [foldl]; [done | ].
  rewrite decide_False by done. apply IH.
Qed.

Lemma retained_id c m :
  (∀ u l, m !! u = Some l → l ≠ [] ∧ Forall (fun msg => c < time msg) l) →
  retained c m = m.
Proof.
  intros Hfresh. apply map_eq. intros u. rewrite lookup_retained.
  destruct (m !! u) as [l | ] eqn:Hu; [ | done].
  destruct (Hfresh u l Hu) as [Hne Hall]. cbn [default from_option id]. unfold kept.
  assert (Hl : filter (fun msg => c < time msg) l = l).
  { clear Hne Hu. induction Hall as [ | x l Hx _ IH]; [done | ].
    by rewrite filter_cons_True, IH. }
  rewrite Hl. by destruct l.
Qed.

Lemma collect_at_list_mentions message U :
  U ≠ "" →
  (∃ seg, seg ∈ message ∧ seg_type seg = "at" ∧ seg_data seg !! "qq" = Some U) →
  U ∈ collect_at_list message.
Proof.
  intros HU (seg & Hin & Hty & Hqq). unfold collect_at_list.
  set (step := fun (at_list : list string) (seg : MessageSegment) => _).
  assert (Hkeep : ∀ msg acc, U ∈ acc → U ∈ foldl step acc msg).
  { induction msg as [ | s msg IH]; intros acc Hacc; [done | ].
    cbn [foldl]. apply IH. unfold step.
    repeat case_decide; try done. apply elem_of_app. by left. }
  generalize (@nil string).
  induction Hin as [seg message | seg s message Hin IH]; intros acc; cbn [foldl].
  - apply Hkeep. unfold step. rewrite decide_True by done. rewrite Hqq. cbn.
    rewrite decide_False by done. apply elem_of_app. right. left.
  - by apply IH.
Qed.

Lemma occurrences_filter {A} `{EqDecision A} (P : A → Prop) `{!∀ x, Decision (P x)}
    (x : A) l :
  P x → occurrences x (filter P l) = occurrences x l.
Proof.
  intros HP. unfold occurrences. rewrite list_filter_filter. f_equal.
  apply list_filter_iff. intros y. split; [tauto | ]. intros ->. done.
Qed.

Section recorder_claims.
Context (str : list MessageSegment → string).

(** C4, as the recorder has it. A message without a mention segment and
    without reply metadata appends no record. If it has no segment at all,
    nothing happens: the world is unchanged. Otherwise the recorder still
    prunes the index once and then saves it once: the index afterwards is the
    index before without the expired records (unchanged when no record has
    expired and no list is empty), and the journal gains one call of
    [_record_for_users] with no recipient, one prune and one save. *)
Theorem C4_plain_message_prunes_and_saves (event : MessageEvent) (w : World) :
  Forall (fun seg => seg_type seg ≠ "at") (event_message event) →
  event_reply event = None →
  (event_message event = [] → record_message str event w = (Return tt, w)) ∧
  (event_message event ≠ [] →
   let info := message_info str (clock w (ticks w)) event [] false None in
   let c := expire_time_at w (clock w (S (ticks w))) in
   (∃ f lg,
      record_message str event w =
      (Return tt,
       saved (moved w (retained c (messages w)) (S (S (ticks w)))
                (journal w ++ [record_for_users_called [] None info;
                               clean_old_messages_called c])) f lg)) ∧
   ((∀ u l, messages w !! u = Some l → l ≠ [] ∧ Forall (fun msg => c < time msg) l) →
    retained c (messages w) = messages w)).
Proof.
  intros Hno Hr. split; [apply record_message_empty | ].
  intros Hm info c. split; [ | apply retained_id].
  destruct (record_message_no_reply str event w Hm Hr) as (f & lg & Hrun).
  rewrite (collect_at_list_no_at _ Hno) in Hrun.
  exists f, lg. exact Hrun.
Qed.

Lemma prunes_app j1 j2 : prunes (j1 ++ j2) = prunes j1 ++ prunes j2.
Proof. apply omap_app. Qed.

Lemma prunes_cons c j :
  prunes (c :: j) =
  match c with clean_old_messages_called t => t :: prunes j | _ => prunes j end.
Proof. by destruct c. Qed.

Lemma prunes_appended (e : Event) us : prunes (map (fun u => appended u e) us) = [].
Proof. by induction us. Qed.

(** C5, as the recorder has it. For a message with at least one segment the
    journal gains, last, the call of [_record_for_users] for the message
    itself, its appends, one prune and then the save: the last prune comes
    after every append of the message and directly before the save. For a
    message without reply metadata that is the only prune. For a reply the
    recorder has pruned once more before, in the call of
    [_record_for_users] for the replied-to message, ahead of every append. *)
Theorem C5_prune_after_appends_before_save (event : MessageEvent) (w : World) :
  event_message event ≠ [] →
  let at_list := collect_at_list (event_message event) in
  ∃ before r info c w',
    record_message str event w = (Return tt, w') ∧
    journal w' =
      journal w ++ before
        ++ record_for_users_called at_list r info
        :: map (fun u => appended u info) (recipients at_list r)
        ++ [clean_old_messages_called c; save_messages_called] ∧
    match event_reply event with
    | None =>
      before = [] ∧
      length (prunes (journal w')) = S (length (prunes (journal w)))
    | Some _ =>
      (∃ rinfo c1,
         before = [record_for_users_called [] None rinfo; clean_old_messages_called c1]) ∧
      length (prunes (journal w')) = S (S (length (prunes (journal w))))
    end.
Proof.
  intros Hm at_list.
  destruct (event_reply event) as [reply_msg | ] eqn:Hr.
  - destruct (record_message_reply str event reply_msg w Hm Hr) as (f & lg & Hrun).
    fold at_list in Hrun.
    set (u := sender_user_id (reply_sender reply_msg)) in Hrun.
    set (info := message_info str _ event at_list true (Some u)) in Hrun.
    set (rinfo := reply_message_info str _ reply_msg _) in Hrun.
    set (c1 := expire_time_at w (clock w (S (ticks w)))) in Hrun.
    set (c2 := expire_time_at w (clock w (S (S (S (ticks w)))))) in Hrun.
    exists [record_for_users_called [] None rinfo; clean_old_messages_called c1],
      (Some u), info, c2.
    eexists. split; [exact Hrun | ].
    cbn [journal saved moved]. split.
    + rewrite <- !app_assoc. cbn [app]. rewrite <- !app_assoc. reflexivity.
    + split; [by exists rinfo, c1 | ].
      repeat (rewrite prunes_app || rewrite prunes_cons || rewrite prunes_appended).
      rewrite !length_app. simpl. lia.
  - destruct (record_message_no_reply str event w Hm Hr) as (f & lg & Hrun).
    fold at_list in Hrun.
    set (info := message_info str _ event at_list false None) in Hrun.
    set (c := expire_time_at w (clock w (S (ticks w)))) in Hrun.
    exists [], None, info, c.
    eexists. split; [exact Hrun | ].
    cbn [journal saved moved]. split.
    + rewrite <- !app_assoc. cbn [app]. rewrite <- !app_assoc. reflexivity.
    + split; [done | ].
      repeat (rewrite prunes_app || rewrite prunes_cons || rewrite prunes_appended).
      rewrite !length_app. simpl. lia.
Qed.

(** C3, as the recorder has it. The record built for the replied-to message
    is the one handed to the first call of [_record_for_users]. Its time is
    the reading of the clock when the reply is recorded; it carries the
    author of the original message, the original's raw content, an empty
    mention list, [is_reply = False], no [reply_user_id], and the group of
    the reply. *)
Theorem C3_synthesized_record (event : MessageEvent) (reply_msg : Reply) (w : World) :
  event_message event ≠ [] →
  event_reply event = Some reply_msg →
  ∃ e rest w',
    record_message str event w = (Return tt, w') ∧
    journal w' = journal w ++ record_for_users_called [] None e :: rest ∧
    time e = clock w (ticks w) ∧
    user_id e = sender_user_id (reply_sender reply_msg) ∧
    raw_message e = str (reply_message reply_msg) ∧
    at_list e = [] ∧
    is_reply e = false ∧
    reply_user_id e = None ∧
    group_id e = event_group_id event.
Proof.
  intros Hm Hr.
  destruct (record_message_reply str event reply_msg w Hm Hr) as (f & lg & Hrun).
  exists (reply_message_info str (clock w (ticks w)) reply_msg (event_group_id event)).
  eexists _, _. split; [exact Hrun | ].
  cbn [journal saved moved]. split; [ | done].
  rewrite <- !app_assoc. cbn [app]. reflexivity.
Qed.

(** C10. A message that mentions U and replies to a message of U is stored
    under U once for every mention of U and once more for the reply: when
    the record is not already expired at the prune that follows, the list
    of U ends with at least two copies of it. A query of U in the group of
    the message then yields the record at least twice, provided the list
    of U is no longer than the maximum number of results. *)
Theorem C10_mention_and_reply_stored_twice
    (event : MessageEvent) (reply_msg : Reply) (U G : string) (w : World) :
  U ≠ "" →
  (∃ seg, seg ∈ event_message event ∧ seg_type seg = "at" ∧ seg_data seg !! "qq" = Some U) →
  event_reply event = Some reply_msg →
  sender_user_id (reply_sender reply_msg) = U →
  event_group_id event = Some G →
  expire_time_at w (clock w (S (S (S (ticks w))))) < clock w (S (S (ticks w))) →
  let at_list := collect_at_list (event_message event) in
  let info := message_info str (clock w (S (S (ticks w)))) event at_list true (Some U) in
  ∃ w' older,
    record_message str event w = (Return tt, w') ∧
    messages w' !! U = Some (older ++ replicate (S (occurrences U at_list)) info) ∧
    (2 ≤ S (occurrences U at_list))%nat ∧
    (Z.of_nat (length (older ++ replicate (S (occurrences U at_list)) info))
       ≤ who_at_me_max_messages (config w) →
     ∃ result,
       filtered_messages U G w' = (Return result, w') ∧
       (2 ≤ occurrences info result)%nat).
Proof.
  intros HU Hat Hr HUr HG Hfresh at_list info.
  assert (Hin : U ∈ at_list) by (by apply collect_at_list_mentions).
  assert (Hm : event_message event ≠ []).
  { destruct Hat as (seg & Hseg & _). intros Hnil. rewrite Hnil in Hseg.
    by apply elem_of_nil in Hseg. }
  destruct (record_message_reply str event reply_msg w Hm Hr) as (f & lg & Hrun).
  rewrite HUr in Hrun. fold at_list in Hrun. fold info in Hrun.
  set (c1 := expire_time_at w (clock w (S (ticks w)))) in Hrun.
  set (c2 := expire_time_at w (clock w (S (S (S (ticks w)))))) in *.
  assert (Hrec : recipients at_list (Some U) = at_list ++ [U]).
  { unfold recipients. by rewrite decide_False. }
  assert (Hocc : occurrences U (at_list ++ [U]) = S (occurrences U at_list)).
  { rewrite occurrences_app, occurrences_cons, decide_True by done. cbn. lia. }
  set (older := kept c2 (default [] (retained c1 (messages w) !! U))).
  assert (Hlook :
    retained c2 (foldl (with_appended info) (retained c1 (messages w))
                   (recipients at_list (Some U))) !! U =
    Some (older ++ replicate (S (occurrences U at_list)) info)).
  { rewrite lookup_retained, lookup_foldl_with_appended, Hrec, Hocc.
    cbn [default from_option id]. rewrite kept_app, kept_replicate by exact Hfresh.
    fold older. cbn [replicate]. by destruct older. }
  eexists _, older. split; [exact Hrun | ].
  split; [exact Hlook | ].
  split; [apply occurrences_elem_of in Hin; lia | ].
  intros Hmax. unfold filtered_messages, get_at_messages.
  unfold mbind at 1, Action_bind at 1.
  unfold mbind at 1, Action_bind at 1. unfold get_messages at 1.
  cbn [messages saved moved]. rewrite Hlook.
  unfold mbind at 1, Action_bind at 1. unfold get_plugin_config at 1.
  cbn [config saved moved].
  unfold mret at 1, Action_ret at 1. unfold mret at 1, Action_ret at 1.
  eexists. split; [reflexivity | ].
  rewrite PyFacts.slice_to_all
    by (by rewrite (Permutation_length (PyFacts.sorted_reverse_perm time _))).
  rewrite occurrences_filter.
  - rewrite (occurrences_perm _ _ _ (PyFacts.sorted_reverse_perm time _)).
    rewrite occurrences_app, occurrences_replicate.
    apply occurrences_elem_of in Hin. lia.
  - split; [exact HG | ]. left. exact Hin.
Qed.

End recorder_claims.

(** *** The scenarios of the write path *)

(** C1, at the reply scenario of the specification: U2 replies "ok" at 1000
    in G1 to the message "hi" of U1. The recorder builds the record of the
    original message and hands it to [_record_for_users] with no recipient,
    so it is stored under nobody: afterwards the index holds the reply
    alone, and the query of U1 in G1 yields the reply alone. *)
Theorem C1_reply_scenario_original_not_stored :
  let w' := (record_message Scenario.str Scenario.reply_event Scenario.empty_world).2 in
  head (journal w') =
    Some (record_for_users_called [] None Scenario.synthesized_record) ∧
  messages w' = {[ "U1" := [Scenario.reply_record] ]} ∧
  filtered_messages "U1" "G1" w' = (Return [Scenario.reply_record], w') ∧
  (∀ u l, messages w' !! u = Some l →
     (Scenario.synthesized_record ∉ l) ∧ (Scenario.original_record ∉ l)).
Proof.
  assert (Hm : messages (record_message Scenario.str Scenario.reply_event
                           Scenario.empty_world).2
               = {[ "U1" := [Scenario.reply_record] ]}) by (by vm_compute).
  cbv zeta. split; [by vm_compute | ]. split; [exact Hm | ].
  split; [by vm_compute | ].
  intros u l. rewrite Hm. intros [<- <-]%lookup_singleton_Some.
  split; intros Hin; apply list_elem_of_singleton in Hin; discriminate Hin.
Qed.

(** C3, as stated, fails at the reply scenario: the record built for the
    original message carries
    the time of recording, 1000, and not the original's own time stamp. *)
Lemma C3_counterexample :
  ∃ e rest,
    journal (record_message Scenario.str Scenario.reply_event Scenario.empty_world).2 =
      record_for_users_called [] None e :: rest ∧
    time e = 1000 ∧
    reply_time Scenario.original = 900 ∧
    time e ≠ reply_time Scenario.original.
Proof.
  eexists _, _. split; [by vm_compute | ]. by vm_compute.
Qed.

(** C3 as amended, at the reply scenario. *)
Lemma C3_synthesized_record_witness :
  event_message Scenario.reply_event ≠ [] ∧
  event_reply Scenario.reply_event = Some Scenario.original ∧
  ∃ e rest w',
    record_message Scenario.str Scenario.reply_event Scenario.empty_world = (Return tt, w') ∧
    journal w' = journal Scenario.empty_world ++ record_for_users_called [] None e :: rest ∧
    time e = clock Scenario.empty_world (ticks Scenario.empty_world) ∧
    user_id e = sender_user_id (reply_sender Scenario.original) ∧
    raw_message e = Scenario.str (reply_message Scenario.original) ∧
    at_list e = [] ∧
    is_reply e = false ∧
    reply_user_id e = None ∧
    group_id e = event_group_id Scenario.reply_event.
Proof.
  split; [discriminate | ]. split; [reflexivity | ].
  apply (C3_synthesized_record Scenario.str Scenario.reply_event Scenario.original
           Scenario.empty_world); [discriminate | reflexivity].
Defined.

(** C4, as stated, fails at the plain scenario: a message without mention
    and without reply
    changes the index (the expired record of U goes) and writes the file. *)
Lemma C4_counterexample :
  Forall (fun seg => seg_type seg ≠ "at") (event_message Scenario.plain_event) ∧
  event_reply Scenario.plain_event = None ∧
  let w' := (record_message Scenario.str Scenario.plain_event Scenario.stale_world).2 in
  messages w' ≠ messages Scenario.stale_world ∧
  save_messages_called ∈ journal w' ∧
  message_file Scenario.stale_world = Missing ∧
  message_file w' = Holds (Json.JObject []).
Proof.
  split; [repeat constructor; discriminate | ]. split; [reflexivity | ].
  cbv zeta. split; [ | split; [ | split; by vm_compute]].
  - intros Heq. apply (f_equal (fun m => m !! "U")) in Heq. vm_compute in Heq. discriminate Heq.
  - vm_compute. do 2 right. left.
Qed.

(** C4 as amended, at the plain scenario. *)
Lemma C4_plain_message_prunes_and_saves_witness :
  Forall (fun seg => seg_type seg ≠ "at") (event_message Scenario.plain_event) ∧
  event_reply Scenario.plain_event = None ∧
  ∃ f lg,
    record_message Scenario.str Scenario.plain_event Scenario.stale_world =
    (Return tt,
     saved (moved Scenario.stale_world
              (retained 777600 (messages Scenario.stale_world)) 2
              [record_for_users_called [] None
                 (message_info Scenario.str 864000 Scenario.plain_event [] false None);
               clean_old_messages_called 777600]) f lg).
Proof.
  assert (Hno : Forall (fun seg => seg_type seg ≠ "at") (event_message Scenario.plain_event))
    by (repeat constructor; discriminate).
  split; [exact Hno | ]. split; [reflexivity | ].
  destruct (C4_plain_message_prunes_and_saves Scenario.str Scenario.plain_event
              Scenario.stale_world Hno eq_refl) as [_ Hrun].
  destruct Hrun as [Hrun _]; [discriminate | ]. exact Hrun.
Defined.

(** C5, as stated, fails at the reply scenario: the recorder prunes twice,
    the first time before
    the reply is appended. *)
Lemma C5_counterexample :
  let w' := (record_message Scenario.str Scenario.reply_event Scenario.empty_world).2 in
  journal w' =
    [record_for_users_called [] None Scenario.synthesized_record;
     clean_old_messages_called (-603800);
     record_for_users_called [] (Some "U1") Scenario.reply_record;
     appended "U1" Scenario.reply_record;
     clean_old_messages_called (-603800);
     save_messages_called] ∧
  length (prunes (journal w')) ≠ 1%nat.
Proof. cbv zeta. split; by vm_compute. Qed.

(** C5 as amended, at the reply scenario. *)
Lemma C5_prune_after_appends_before_save_witness :
  event_message Scenario.reply_event ≠ [] ∧
  ∃ before r info c w',
    record_message Scenario.str Scenario.reply_event Scenario.empty_world = (Return tt, w') ∧
    journal w' =
      journal Scenario.empty_world ++ before
        ++ record_for_users_called (collect_at_list (event_message Scenario.reply_event)) r info
        :: map (fun u => appended u info)
             (recipients (collect_at_list (event_message Scenario.reply_event)) r)
        ++ [clean_old_messages_called c; save_messages_called] ∧
    match event_reply Scenario.reply_event with
    | None =>
      before = [] ∧
      length (prunes (journal w')) = S (length (prunes (journal Scenario.empty_world)))
    | Some _ =>
      (∃ rinfo c1,
         before = [record_for_users_called [] None rinfo; clean_old_messages_called c1]) ∧
      length (prunes (journal w')) = S (S (length (prunes (journal Scenario.empty_world))))
    end.
Proof.
  split; [discriminate | ].
  apply (C5_prune_after_appends_before_save Scenario.str Scenario.reply_event
           Scenario.empty_world). discriminate.
Defined.

(** C10 at the scenario in which U2 mentions U1 in a reply to U1: the list
    of U1 is the record twice, and so is the answer to the query of U1. *)
Lemma C10_mention_and_reply_stored_twice_witness :
  let w := Scenario.empty_world in
  let event := Scenario.mention_and_reply in
  let info := message_info Scenario.str 1000 event ["U1"] true (Some "U1") in
  ∃ w',
    record_message Scenario.str event w = (Return tt, w') ∧
    messages w' !! "U1" = Some [info; info] ∧
    ∃ result,
      filtered_messages "U1" "G1" w' = (Return result, w') ∧
      (2 ≤ occurrences info result)%nat.
Proof.
  cbv zeta.
  destruct (C10_mention_and_reply_stored_twice Scenario.str Scenario.mention_and_reply
              Scenario.original "U1" "G1" Scenario.empty_world)
    as (w' & older & Hrun & Hlook & _ & Hquery).
  - discriminate.
  - exists (Scenario.at_ "U1"). split; [left | split; reflexivity].
  - reflexivity.
  - reflexivity.
  - reflexivity.
  - reflexivity.
  - exists w'. split; [exact Hrun | ].
    assert (Hw' : w' = (record_message Scenario.str Scenario.mention_and_reply
                          Scenario.empty_world).2) by (by rewrite Hrun).
    split.
    + rewrite Hw'. by vm_compute.
    + apply Hquery.
      assert (Hlen : ∀ l, messages w' !! "U1" = Some l → length l = 2%nat).
      { intros l Hl. rewrite Hw' in Hl. vm_compute in Hl. injection Hl as <-. reflexivity. }
      rewrite (Hlen _ Hlook). by vm_compute.
Defined.

(** ** The query path *)

Lemma get_at_messages_run user_id w :
  get_at_messages user_id w =
  (Return (Py.slice_to (who_at_me_max_messages (config w))
             (Py.sorted_reverse time (default [] (messages w !! user_id)))), w).
Proof.
  unfold get_at_messages. unfold mbind at 1, Action_bind at 1. unfold get_messages at 1.
  destruct (messages w !! user_id) as [l | ]; [done | ].
  unfold mret, Action_ret. cbn [default Py.sorted_reverse foldr]. unfold Py.slice_to.
  case_decide; by rewrite take_nil.
Qed.

(** C2, as the code has it. The query takes the records stored under the
    user, sorts them by time, newest first and records of equal time in their
    stored order, truncates the sorted list to the configured maximum, and
    only then keeps the records of the current group that mention the user or
    reply to the user: truncation comes before filtering. For a maximum
    that is not negative the result so has at most the maximum number of
    records. When no more records are stored
    than the maximum, truncation removes nothing and the result is the one
    obtained by filtering first, then sorting, then truncating. *)
Theorem C2_query_sorts_truncates_then_filters (user_id current_group_id : string) (w : World) :
  let stored := default [] (messages w !! user_id) in
  let max_messages := who_at_me_max_messages (config w) in
  ∃ sorted_ result,
    filtered_messages user_id current_group_id w = (Return result, w) ∧
    result = filter (asked user_id current_group_id) (Py.slice_to max_messages sorted_) ∧
    sorted_ ≡ₚ stored ∧
    StronglySorted (Py.descending time) sorted_ ∧
    (∀ t, filter (fun msg => time msg = t) sorted_ = filter (fun msg => time msg = t) stored) ∧
    (0 ≤ max_messages → (length result ≤ Z.to_nat max_messages)%nat) ∧
    (Z.of_nat (length stored) ≤ max_messages →
     result = query_filter_sort_truncate max_messages stored user_id current_group_id).
Proof.
  intros stored max_messages.
  exists (Py.sorted_reverse time stored).
  eexists. split.
  { unfold filtered_messages. unfold mbind at 1, Action_bind at 1.
    rewrite get_at_messages_run. reflexivity. }
  fold stored. fold max_messages.
  split; [reflexivity | ].
  split; [apply PyFacts.sorted_reverse_perm | ].
  split; [apply PyFacts.sorted_reverse_sorted | ].
  split; [intros t; apply PyFacts.sorted_reverse_stable | ].
  split.
  - intros Hmax. etransitivity; [apply length_filter | ].
    by apply PyFacts.slice_to_length.
  - intros Hlen. unfold query_filter_sort_truncate.
    rewrite PyFacts.slice_to_all
      by (by rewrite (Permutation_length (PyFacts.sorted_reverse_perm time _))).
    rewrite PyFacts.filter_sorted_reverse. symmetry. apply take_ge.
    rewrite (Permutation_length (PyFacts.sorted_reverse_perm time _)).
    pose proof (length_filter (asked user_id current_group_id) stored). lia.
Qed.

(** C2, as stated, fails at the two-groups scenario. With one mention in
    another group that is newer than the mention in the
    current group, and a maximum of one record, the query yields nothing,
    while filtering first would yield the mention of the current group. *)
Lemma C2_counterexample :
  let w := Scenario.two_groups in
  let stored := [Scenario.mention 2000 "G2"; Scenario.mention 1000 "G1"] in
  messages w !! "U" = Some stored ∧
  who_at_me_max_messages (config w) = 1 ∧
  filtered_messages "U" "G1" w = (Return [], w) ∧
  query_filter_sort_truncate 1 stored "U" "G1" = [Scenario.mention 1000 "G1"] ∧
  (filtered_messages "U" "G1" w).1 ≠
    Return (query_filter_sort_truncate (who_at_me_max_messages (config w)) stored "U" "G1").
Proof.
  cbv zeta. split; [by vm_compute | ]. split; [reflexivity | ].
  split; [by vm_compute | ]. split; [by vm_compute | ].
  vm_compute. discriminate.
Qed.


(** ** The scenarios of the specification, run on the model *)

(** U1 sends "hello @U2" in G1 at 1000: the query of U2 in G1 returns the
    one record, the query of U2 in G2 returns nothing, and the mention
    segment without a target is not recorded. *)
Example mention_scenario :
  let w' := (record_message Scenario.str Scenario.hello_event Scenario.empty_world).2 in
  messages w' = {[ "U2" := [Scenario.hello_record] ]} ∧
  filtered_messages "U2" "G1" w' = (Return [Scenario.hello_record], w') ∧
  filtered_messages "U2" "G2" w' = (Return [], w').
Proof. cbv zeta. split; [by vm_compute | split; by vm_compute]. Qed.

(** With a window of one day, a record that is 90000 seconds old is gone
    after the next message is recorded. *)
Example retention_scenario :
  let w := Scenario.world {[ "U" := [Scenario.mention 774000 "G1"] ]} 864000 1 10 in
  let w' := (record_message Scenario.str Scenario.hello_event w).2 in
  filtered_messages "U" "G1" w = (Return [Scenario.mention 774000 "G1"], w) ∧
  messages w' !! "U" = None ∧
  filtered_messages "U" "G1" w' = (Return [], w').
Proof. cbv zeta. split; [by vm_compute | split; by vm_compute]. Qed.

(** * Further properties of the recorder and the query *)

(** ** Retention composes *)

Lemma kept_kept c1 c2 l : kept c2 (kept c1 l) = kept (Z.max c1 c2) l.
Proof.
  unfold kept. rewrite list_filter_filter. apply list_filter_iff.
  intros msg. lia.
Qed.

Lemma lookup_retained_retained c1 c2 m u :
  retained c2 (retained c1 m) !! u = retained (Z.max c1 c2) m !! u.
Proof.
  rewrite !lookup_retained.
  assert (Hd : kept c2 (default [] (match kept c1 (default [] (m !! u)) with
                                    | [] => None
                                    | l' => Some l'
                                    end)) = kept (Z.max c1 c2) (default [] (m !! u))).
  { rewrite <- kept_kept. by destruct (kept c1 (default [] (m !! u))). }
  by rewrite Hd.
Qed.

Lemma retained_retained c1 c2 m : retained c2 (retained c1 m) = retained (Z.max c1 c2) m.
Proof. apply map_eq. intros u. apply lookup_retained_retained. Qed.

(** Two prunes in a row leave what one prune at the later of the two
    cut-offs leaves: pruning is idempotent, and a second prune with an
    earlier cut-off changes nothing. *)
Theorem clean_old_messages_twice (w : World) :
  let c1 := expire_time_at w (clock w (ticks w)) in
  let c2 := expire_time_at w (clock w (S (ticks w))) in
  ∃ w',
    (_clean_old_messages;; _clean_old_messages) w = (Return tt, w') ∧
    messages w' = retained (Z.max c1 c2) (messages w) ∧
    (c2 ≤ c1 → messages w' = retained c1 (messages w)).
Proof.
  intros c1 c2. unfold mbind, Action_bind.
  rewrite clean_old_messages_run. rewrite clean_old_messages_run.
  eexists. split; [reflexivity | ].
  cbn [messages moved ticks clock]. fold c1.
  change (expire_time_at (moved w _ _ _) ?x) with (expire_time_at w x). fold c2.
  rewrite retained_retained. split; [done | ].
  intros Hle. by rewrite Z.max_l.
Qed.

(** ** What one call of [_record_for_users] stores *)

(** After [_record_for_users] a recipient holds its earlier records that
    are not expired, followed by the new record once for every time the
    recipient occurs among the mentioned identities and once more when it is
    the reply target, provided the new record is itself not expired; a user
    mentioned twice in one message so gets the record twice. A user who is
    not addressed only loses its expired records. *)
Theorem record_for_users_stores (at_list : list string) (reply_user_id : option string)
    (e : Event) (w : World) :
  let c := expire_time_at w (clock w (ticks w)) in
  ∃ w',
    _record_for_users at_list reply_user_id e w = (Return tt, w') ∧
    ∀ u,
      let n := occurrences u (recipients at_list reply_user_id) in
      let l := kept c (default [] (messages w !! u))
                 ++ (if decide (c < time e) then replicate n e else []) in
      messages w' !! u = match l with [] => None | _ => Some l end.
Proof.
  intros c. rewrite record_for_users_run. eexists. split; [reflexivity | ].
  intros u n l. cbn [messages moved]. fold c.
  rewrite lookup_retained, lookup_foldl_with_appended. fold n.
  assert (Hl : kept c (default [] (match n with
                                   | O => messages w !! u
                                   | S _ => Some (default [] (messages w !! u) ++ replicate n e)
                                   end)) = l).
  { unfold l. destruct n as [ | n'].
    - case_decide; cbn [replicate]; by rewrite app_nil_r.
    - cbn [default from_option id]. rewrite kept_app. f_equal.
      case_decide as Hc; [by apply kept_replicate | ].
      unfold kept. generalize (S n'). intros k.
      induction k as [ | k IH]; [done | ].
      cbn [replicate]. by rewrite filter_cons_False. }
  rewrite Hl. clearbody l. by destruct l.
Qed.

(** ** One call of [record_message], as a whole *)

Lemma occurrences_not_elem_of {A} `{EqDecision A} (x : A) l :
  x ∉ l → occurrences x l = O.
Proof.
  induction l as [ | y l IH]; [done | ].
  rewrite not_elem_of_cons. intros [Hne Hnin].
  rewrite occurrences_cons, decide_False by done. by apply IH.
Qed.

Lemma occurrences_positive {A} `{EqDecision A} (x : A) l :
  (1 ≤ occurrences x l)%nat → x ∈ l.
Proof.
  intros Hocc. destruct (decide (x ∈ l)) as [Hin | Hnin]; [done | ].
  rewrite occurrences_not_elem_of in Hocc by done. lia.
Qed.

(** No mention without a target is collected. *)
Lemma collect_at_list_no_empty message : "" ∉ collect_at_list message.
Proof.
  unfold collect_at_list.
  assert (Hgen : ∀ acc, "" ∉ acc →
            "" ∉ foldl (fun (at_list : list string) (seg : MessageSegment) =>
                          if decide (seg_type seg = "at") then
                            let at_user_id := default "" (seg_data seg !! "qq") in
                            if decide (at_user_id = "") then at_list
                            else at_list ++ [at_user_id]
                          else at_list) acc message).
  { induction message as [ | seg message IH]; intros acc Hacc; [done | ].
    cbn [foldl]. apply IH. repeat case_decide; try done.
    rewrite elem_of_app, list_elem_of_singleton. intros [? | ?]; [done | ].
    congruence. }
  apply Hgen. apply not_elem_of_nil.
Qed.

Lemma recipients_no_empty at_list reply_user_id :
  "" ∉ at_list → "" ∉ recipients at_list reply_user_id.
Proof.
  intros Hat. unfold recipients. rewrite elem_of_app. intros [? | Hin]; [done | ].
  destruct reply_user_id as [u | ]; [ | by apply elem_of_nil in Hin].
  case_decide; [by apply elem_of_nil in Hin | ].
  apply list_elem_of_singleton in Hin. congruence.
Qed.

Lemma default_retained c m u :
  default [] (retained c m !! u) = kept c (default [] (m !! u)).
Proof. rewrite lookup_retained. by destruct (kept c (default [] (m !! u))). Qed.

(** Appending to a pruned index and pruning again, with a cut-off that is
    not earlier, gives what appending to the index as it was and pruning
    once gives. *)
Lemma retained_foldl_with_appended_retained c1 c2 e us m :
  c1 ≤ c2 →
  retained c2 (foldl (with_appended e) (retained c1 m) us) =
  retained c2 (foldl (with_appended e) m us).
Proof.
  intros Hle. apply map_eq. intros u.
  rewrite !lookup_retained, !lookup_foldl_with_appended.
  assert (Hk : kept c2 (default [] (retained c1 m !! u)) = kept c2 (default [] (m !! u))).
  { rewrite default_retained, kept_kept. by rewrite Z.max_r. }
  destruct (occurrences u us) as [ | n].
  - by rewrite Hk.
  - cbn [default from_option id]. by rewrite !kept_app, Hk.
Qed.

Section record_message_whole.
Context (str : list MessageSegment → string).

(** What a call of [record_message] for a message with at least one segment
    leaves: the index, the file, the log and the clock position. *)
Lemma record_message_outcome (event : MessageEvent) (w : World) :
  event_message event ≠ [] →
  ∃ j,
    record_message str event w =
    (Return tt,
     {| messages := index_after str event w;
        message_file :=
          match disk w with
          | Healthy => Holds (Json.dump (value_of_messages (index_after str event w)))
          | DumpFails => Garbled
          | MakedirsFails | OpenFails => message_file w
          end;
        disk := disk w;
        clock := clock w;
        ticks := S (S (record_tick event w));
        config := config w;
        log :=
          match disk w with
          | Healthy => log w
          | MakedirsFails => log w ++ [error_record_failed OSError]
          | OpenFails | DumpFails => log w ++ [error_save_failed OSError]
          end;
        journal := j |}).
Proof.
  intros Hm. unfold index_after, recorded, last_cutoff, index_before_appends,
    record_tick, reply_target.
  unfold record_message, try_except.
  destruct (event_message event) as [ | seg segs] eqn:Hmsg; [done | ].
  destruct (event_reply event) as [reply_msg | ] eqn:Hr; cbn [fmap option_fmap option_map].
  - unfold mbind at 1, Action_bind at 1.
    unfold mbind at 1, Action_bind at 1. unfold time_time at 1.
    unfold mbind at 1, Action_bind at 1. rewrite record_for_users_run.
    unfold mret at 1, Action_ret at 1.
    unfold mbind at 1, Action_bind at 1. unfold time_time at 1.
    unfold mbind at 1, Action_bind at 1. rewrite record_for_users_run.
    unfold _save_messages_async. rewrite save_messages_run.
    cbn [disk moved messages ticks journal clock config log message_file recipients
         foldl map app].
    destruct (disk w) eqn:Hd; eexists; unfold saved, moved, logger; cbn;
      rewrite ?Hd; reflexivity.
  - unfold mbind at 1, Action_bind at 1. unfold mret at 1, Action_ret at 1.
    unfold mbind at 1, Action_bind at 1. unfold time_time at 1.
    unfold mbind at 1, Action_bind at 1. rewrite record_for_users_run.
    unfold _save_messages_async. rewrite save_messages_run.
    cbn [disk moved messages ticks journal clock config log message_file].
    destruct (disk w) eqn:Hd; eexists; unfold saved, moved, logger; cbn;
      rewrite ?Hd; reflexivity.
Qed.

(** [record_message] never raises. Whatever the storage does with the
    write, the call returns normally and leaves the same index in memory;
    only the log tells a failed write: a failure of [os.makedirs] is logged
    by [record_message] itself, a failure to open or to write the file by
    [_save_messages]. A message without segments changes nothing. *)
Theorem record_message_never_raises (event : MessageEvent) (w : World) :
  ∃ w',
    record_message str event w = (Return tt, w') ∧
    messages w' =
      match event_message event with
      | [] => messages w
      | _ :: _ => index_after str event w
      end ∧
    log w' =
      match event_message event, disk w with
      | [], _ | _ :: _, Healthy => log w
      | _ :: _, MakedirsFails => log w ++ [error_record_failed OSError]
      | _ :: _, (OpenFails | DumpFails) => log w ++ [error_save_failed OSError]
      end.
Proof.
  destruct (event_message event) as [ | seg segs] eqn:Hmsg.
  - rewrite record_message_empty by done. by eexists.
  - destruct (record_message_outcome event w) as [j ->]; [by rewrite Hmsg | ].
    eexists. split; [reflexivity | ]. cbn [messages log]. split; [done | ].
    by destruct (disk w).
Qed.

Lemma retained_Some c m u l :
  retained c m !! u = Some l → l ≠ [] ∧ Forall (fun msg => c < time msg) l.
Proof.
  rewrite lookup_retained. unfold kept.
  destruct (filter _ _) as [ | x l'] eqn:Hf; [done | ].
  intros [= <-]. split; [done | ].
  rewrite <- Hf. apply Forall_forall. intros msg Hin.
  by apply list_elem_of_filter in Hin as [? _].
Qed.

(** After a message with at least one segment is recorded, no recipient of
    the index has an empty list and no stored record is as old as the
    cut-off of the last prune. *)
Theorem record_message_leaves_no_expired (event : MessageEvent) (w : World) :
  event_message event ≠ [] →
  ∃ w',
    record_message str event w = (Return tt, w') ∧
    ∀ u l, messages w' !! u = Some l →
           l ≠ [] ∧ Forall (fun msg => last_cutoff event w < time msg) l.
Proof.
  intros Hm. destruct (record_message_outcome event w Hm) as [j ->].
  eexists. split; [reflexivity | ]. cbn [messages]. unfold index_after.
  intros u l. apply retained_Some.
Qed.

(** The recorder never files a record under the empty identity: a mention
    without a target is skipped, and so is a reply target that is the empty
    string. *)
Theorem record_message_no_empty_recipient (event : MessageEvent) (w : World) :
  messages w !! "" = None →
  ∃ w', record_message str event w = (Return tt, w') ∧ messages w' !! "" = None.
Proof.
  intros Hnone. destruct (event_message event) as [ | seg segs] eqn:Hmsg.
  - rewrite record_message_empty by done. by eexists.
  - destruct (record_message_outcome event w) as [j ->]; [by rewrite Hmsg | ].
    eexists. split; [reflexivity | ]. cbn [messages]. unfold index_after.
    rewrite lookup_retained, lookup_foldl_with_appended.
    rewrite occurrences_not_elem_of
      by (apply recipients_no_empty; apply collect_at_list_no_empty).
    assert (Hb : index_before_appends event w !! "" = None).
    { unfold index_before_appends. destruct (event_reply event); [ | done].
      rewrite lookup_retained, Hnone. done. }
    by rewrite Hb.
Qed.

(** For a reply the recorder prunes twice, before and after the appends.
    When the clock does not run backwards between the two prunes, the index
    it leaves is the one a single prune after the appends would leave. *)
Theorem record_message_as_one_prune (event : MessageEvent) (w : World) :
  event_message event ≠ [] →
  clock w (S (ticks w)) ≤ clock w (S (record_tick event w)) →
  ∃ w',
    record_message str event w = (Return tt, w') ∧
    messages w' =
      retained (last_cutoff event w)
        (foldl (with_appended (recorded str event w)) (messages w)
           (recipients (collect_at_list (event_message event)) (reply_target event))).
Proof.
  intros Hm Hclock. destruct (record_message_outcome event w Hm) as [j ->].
  eexists. split; [reflexivity | ]. cbn [messages]. unfold index_after.
  unfold index_before_appends. destruct (event_reply event) eqn:Hr; [ | done].
  apply retained_foldl_with_appended_retained.
  unfold last_cutoff, expire_time_at. lia.
Qed.

(** Every user a message addresses, by a mention or as the author of the
    message it replies to, finds the message: unless its record is expired
    at once, it is stored under that user, and the user's query in the
    group of the message yields it when the user's list is no longer than
    the maximum number of results. A query of the user in another group
    never yields it. *)
Theorem record_message_addressee_finds_it
    (event : MessageEvent) (A G : string) (w : World) :
  event_message event ≠ [] →
  A ∈ recipients (collect_at_list (event_message event)) (reply_target event) →
  event_group_id event = Some G →
  last_cutoff event w < clock w (record_tick event w) →
  ∃ w' l,
    record_message str event w = (Return tt, w') ∧
    messages w' !! A = Some l ∧
    recorded str event w ∈ l ∧
    user_id (recorded str event w) = event_user_id event ∧
    group_id (recorded str event w) = Some G ∧
    (Z.of_nat (length l) ≤ who_at_me_max_messages (config w) →
     ∃ result,
       filtered_messages A G w' = (Return result, w') ∧ recorded str event w ∈ result) ∧
    (∀ G', G' ≠ G →
     ∃ result,
       filtered_messages A G' w' = (Return result, w') ∧ recorded str event w ∉ result).
Proof.
  intros Hm HA HG Hfresh. destruct (record_message_outcome event w Hm) as [j Hrun].
  set (info := recorded str event w) in *.
  set (us := recipients _ _) in *.
  assert (Hocc : (1 ≤ occurrences A us)%nat) by (by apply occurrences_elem_of).
  set (l := kept (last_cutoff event w) (default [] (index_before_appends event w !! A))
            ++ replicate (occurrences A us) info).
  assert (Hlook : index_after str event w !! A = Some l).
  { unfold index_after. fold info. fold us.
    rewrite lookup_retained, lookup_foldl_with_appended.
    destruct (occurrences A us) as [ | n] eqn:Hn; [lia | ].
    cbn [default from_option id]. rewrite kept_app, kept_replicate by exact Hfresh.
    unfold l. rewrite ?Hn. cbn [replicate].
    by destruct (kept _ _). }
  assert (Hin : info ∈ l).
  { unfold l. apply elem_of_app. right.
    destruct (occurrences A us) as [ | n]; [lia | ]. cbn [replicate]. left. }
  assert (Hasked : asked A G info).
  { split; [exact HG | ].
    unfold us, recipients in HA. apply elem_of_app in HA as [Hat | Hrep]; [by left | ].
    right. unfold info, recorded, reply_target in *. cbn [is_reply reply_user_id message_info].
    destruct (event_reply event) as [reply_msg | ]; cbn [fmap option_fmap option_map] in *;
      [ | by apply elem_of_nil in Hrep].
    case_decide; [by apply elem_of_nil in Hrep | ].
    apply list_elem_of_singleton in Hrep. by subst. }
  rewrite Hrun. eexists _, l. split; [reflexivity | ]. cbn [messages].
  split; [exact Hlook | ]. split; [exact Hin | ]. split; [done | ]. split; [exact HG | ].
  split.
  - intros Hmax. unfold filtered_messages, mbind, Action_bind.
    rewrite get_at_messages_run. cbn [messages config]. rewrite Hlook.
    eexists. split; [reflexivity | ]. cbn [default from_option id].
    rewrite PyFacts.slice_to_all
      by (by rewrite (Permutation_length (PyFacts.sorted_reverse_perm time _))).
    apply list_elem_of_filter. split; [exact Hasked | ].
    by rewrite (PyFacts.sorted_reverse_perm time l).
  - intros G' HG'. unfold filtered_messages, mbind, Action_bind.
    rewrite get_at_messages_run. eexists. split; [reflexivity | ].
    intros Hres. apply list_elem_of_filter in Hres as [[Hg _] _].
    unfold info, recorded in Hg. cbn [group_id message_info] in Hg. congruence.
Qed.

(** With a retention window of zero or fewer days nothing new is ever
    kept: when the clock does not run backwards between the building of the
    record and the prune, the record of the message is under no recipient
    after the call. *)
Theorem record_message_window_not_positive (event : MessageEvent) (w : World) :
  event_message event ≠ [] →
  who_at_me_storage_days (config w) ≤ 0 →
  clock w (record_tick event w) ≤ clock w (S (record_tick event w)) →
  ∃ w',
    record_message str event w = (Return tt, w') ∧
    ∀ u l, messages w' !! u = Some l → recorded str event w ∉ l.
Proof.
  intros Hm Hdays Hclock. destruct (record_message_outcome event w Hm) as [j ->].
  eexists. split; [reflexivity | ]. cbn [messages]. unfold index_after.
  intros u l Hl Hin. apply retained_Some in Hl as [_ Hall].
  rewrite Forall_forall in Hall. specialize (Hall _ Hin).
  unfold recorded in Hall. cbn [time message_info] in Hall.
  unfold last_cutoff, expire_time_at in Hall. nia.
Qed.

End record_message_whole.

(** ** Mentions *)

(** The mentions of a message are the targets of its mention segments, in
    the order of the segments and as often as they occur; a mention segment
    without a target, or with an empty one, contributes nothing. *)
Theorem collect_at_list_targets (message : list MessageSegment) :
  collect_at_list message =
  filter (fun at_user_id => at_user_id ≠ "")
    (map (fun seg => default "" (seg_data seg !! "qq"))
       (filter (fun seg => seg_type seg = "at") message)).
Proof.
  assert (Hgen : ∀ acc,
    foldl (fun (at_list : list string) (seg : MessageSegment) =>
             if decide (seg_type seg = "at") then
               let at_user_id := default "" (seg_data seg !! "qq") in
               if decide (at_user_id = "") then at_list else at_list ++ [at_user_id]
             else at_list) acc message =
    acc ++ filter (fun at_user_id => at_user_id ≠ "")
             (map (fun seg => default "" (seg_data seg !! "qq"))
                (filter (fun seg => seg_type seg = "at") message))).
  { induction message as [ | seg message IH]; intros acc; cbn [foldl].
    - by rewrite app_nil_r.
    - rewrite IH, (filter_cons _ seg).
      destruct (decide (seg_type seg = "at")) as [Hat | Hat]; [ | done].
      cbn [map]. rewrite filter_cons.
      destruct (decide (default "" (seg_data seg !! "qq") = "")) as [He | He].
      + by rewrite decide_False by (intros Hne; by apply Hne).
      + rewrite decide_True by done. by rewrite <- app_assoc. }
  apply (Hgen []).
Qed.

(** ** The query *)

Lemma StronglySorted_filter {A} (R : relation A) (P : A → Prop)
    `{!∀ x, Decision (P x)} l :
  StronglySorted R l → StronglySorted R (filter P l).
Proof.
  induction 1 as [ | x l Hl IH Hx]; [constructor | ].
  rewrite filter_cons. case_decide; [ | done].
  constructor; [done | ]. by apply PyFacts.Forall_filter_keep.
Qed.

Lemma slice_to_take_drop {A} (n : Z) (l : list A) :
  ∃ k, Py.slice_to n l = take k l.
Proof. unfold Py.slice_to. case_decide; by eexists. Qed.

Lemma get_at_messages_split (user_id : string) (w : World) :
  ∃ result rest,
    get_at_messages user_id w = (Return result, w) ∧
    result ++ rest ≡ₚ default [] (messages w !! user_id) ∧
    StronglySorted (Py.descending time) result ∧
    ∀ x y, x ∈ result → y ∈ rest → time y ≤ time x.
Proof.
  rewrite get_at_messages_run.
  set (stored := default [] (messages w !! user_id)).
  destruct (slice_to_take_drop (who_at_me_max_messages (config w))
              (Py.sorted_reverse time stored)) as [k ->].
  exists (take k (Py.sorted_reverse time stored)), (drop k (Py.sorted_reverse time stored)).
  pose proof (PyFacts.sorted_reverse_sorted time stored) as Hsorted.
  rewrite <- (take_drop k (Py.sorted_reverse time stored)) in Hsorted.
  split; [done | ]. split; [ | split].
  - rewrite take_drop. apply PyFacts.sorted_reverse_perm.
  - by apply StronglySorted_app_1_l in Hsorted.
  - intros x y Hx Hy.
    apply (StronglySorted_app_1_elem_of _ _ _ x y Hsorted Hx Hy).
Qed.

(** Truncation keeps the newest: what [get_at_messages] returns and what it
    leaves out are together the stored records of the user, and no record
    that is left out is newer than one that is returned. *)
Theorem get_at_messages_keeps_newest (user_id : string) (w : World) :
  ∃ result rest,
    get_at_messages user_id w = (Return result, w) ∧
    result ++ rest ≡ₚ default [] (messages w !! user_id) ∧
    StronglySorted (Py.descending time) result ∧
    ∀ x y, x ∈ result → y ∈ rest → time y ≤ time x.
Proof. apply get_at_messages_split. Qed.

(** The query yields only what it should: every record it yields is stored
    under the user, belongs to the current group and mentions the user or
    replies to the user, and the records come newest first. Records of
    another group, and records without a group, are never yielded. *)
Theorem filtered_messages_sound (user_id current_group_id : string) (w : World) :
  ∃ result,
    filtered_messages user_id current_group_id w = (Return result, w) ∧
    StronglySorted (Py.descending time) result ∧
    ∀ msg, msg ∈ result →
      msg ∈ default [] (messages w !! user_id) ∧
      group_id msg = Some current_group_id ∧
      (user_id ∈ at_list msg ∨ (is_reply msg = true ∧ reply_user_id msg = Some user_id)).
Proof.
  destruct (get_at_messages_split user_id w)
    as (msgs & rest & Hrun & Hperm & Hsorted & _).
  unfold filtered_messages, mbind, Action_bind. rewrite Hrun.
  eexists. split; [reflexivity | ]. split; [by apply StronglySorted_filter | ].
  intros msg Hin. apply list_elem_of_filter in Hin as [[Hg Hask] Hin].
  split; [ | done].
  rewrite <- Hperm. apply elem_of_app. by left.
Qed.

Section process_query_answers.
Context (str : list MessageSegment → string).
Context (call_api : string → list node → option api_error).


End process_query_answers.

(** ** The file and the index in memory *)

Section persistence.
Context (str : list MessageSegment → string).

(** On healthy storage the file follows the memory: after a message with at
    least one segment is recorded, the file holds the document of the index
    that is in memory, and loading it, in whatever world, also after a
    restart with nothing in memory, returns the value of that index and
    logs the number of its records, a record counted once for every
    recipient it is stored under. *)
Theorem record_message_persists (event : MessageEvent) (w : World) :
  event_message event ≠ [] →
  disk w = Healthy →
  ∃ w',
    record_message str event w = (Return tt, w') ∧
    message_file w' = Holds (Json.dump (value_of_messages (messages w'))) ∧
    ∀ w2, message_file w2 = message_file w' →
      _load_messages w2 =
      (Return (value_of_messages (messages w')),
       logged w2
         [info_loaded (sum_list_with (fun p => length p.2) (map_to_list (messages w')))]).
Proof.
  intros Hm Hd. destruct (record_message_outcome str event w Hm) as [j ->].
  rewrite Hd. eexists. split; [reflexivity | ].
  cbn [messages message_file]. split; [done | ].
  intros w2 Hf. by apply load_messages_of_dump.
Qed.

End persistence.

Lemma load_messages_garbled (w : World) :
  message_file w = Garbled →
  _load_messages w = (Return (Json.Dict []), logged w [error_load_failed JSONDecodeError]).
Proof.
  intros Hf. unfold _load_messages.
  unfold mbind at 1, Action_bind at 1. unfold os_path_exists. rewrite Hf. cbn [negb].
  unfold try_except, mbind at 1, Action_bind at 1, json_load. by rewrite Hf.
Qed.

(** A write that the storage refuses is swallowed: [_save_messages] returns
    normally, logs the error and leaves the index in memory as it is. When
    the file cannot be opened it keeps its content. When writing fails after
    the file was opened, the file no longer holds a document, and the next
    [_load_messages] returns the empty dictionary: the stored history is
    lost until a later save succeeds. *)
Theorem save_failure_is_swallowed (w : World) :
  disk w = OpenFails ∨ disk w = DumpFails →
  ∃ w',
    _save_messages w = (Return tt, w') ∧
    messages w' = messages w ∧
    log w' = log w ++ [error_save_failed OSError] ∧
    (disk w = OpenFails → message_file w' = message_file w) ∧
    (disk w = DumpFails →
     ∃ w'', _load_messages w' = (Return (Json.Dict []), w'') ∧
            log w'' = log w' ++ [error_load_failed JSONDecodeError]).
Proof.
  intros Hd. rewrite save_messages_run.
  destruct Hd as [Hd | Hd]; rewrite Hd.
  - eexists. split; [reflexivity | ]. split; [done | ]. split; [done | ].
    split; [done | ]. intros [=].
  - eexists. split; [reflexivity | ]. split; [done | ]. split; [done | ].
    split; [intros [=] | ]. intros _.
    rewrite load_messages_garbled by done.
    eexists. split; [reflexivity | ]. done.
Qed.

(** ** The further properties at concrete cases *)

(** At the plain scenario, where an expired record is stored. *)
Lemma record_message_leaves_no_expired_witness :
  event_message Scenario.plain_event ≠ [] ∧
  ∃ w',
    record_message Scenario.str Scenario.plain_event Scenario.stale_world = (Return tt, w') ∧
    ∀ u l, messages w' !! u = Some l →
           l ≠ [] ∧
           Forall (fun msg => last_cutoff Scenario.plain_event Scenario.stale_world < time msg) l.
Proof.
  split; [discriminate | ].
  apply (record_message_leaves_no_expired Scenario.str Scenario.plain_event
           Scenario.stale_world). discriminate.
Defined.

(** At a message that carries a mention segment without a target. *)
Lemma record_message_no_empty_recipient_witness :
  messages Scenario.empty_world !! "" = None ∧
  ∃ w',
    record_message Scenario.str Scenario.hello_event Scenario.empty_world = (Return tt, w') ∧
    messages w' !! "" = None.
Proof.
  split; [reflexivity | ].
  apply (record_message_no_empty_recipient Scenario.str Scenario.hello_event
           Scenario.empty_world). reflexivity.
Defined.

(** At the reply scenario, with a clock that stands still. *)
Lemma record_message_as_one_prune_witness :
  event_message Scenario.reply_event ≠ [] ∧
  ∃ w',
    record_message Scenario.str Scenario.reply_event Scenario.empty_world = (Return tt, w') ∧
    messages w' =
      retained (last_cutoff Scenario.reply_event Scenario.empty_world)
        (foldl (with_appended (recorded Scenario.str Scenario.reply_event Scenario.empty_world))
           (messages Scenario.empty_world)
           (recipients (collect_at_list (event_message Scenario.reply_event))
              (reply_target Scenario.reply_event))).
Proof.
  split; [discriminate | ].
  apply (record_message_as_one_prune Scenario.str Scenario.reply_event Scenario.empty_world).
  - discriminate.
  - vm_compute. discriminate.
Defined.

(** At the mention scenario: U2 finds the message of U1 in G1. *)
Lemma record_message_addressee_finds_it_witness :
  let w := Scenario.empty_world in
  ∃ w' l,
    record_message Scenario.str Scenario.hello_event w = (Return tt, w') ∧
    messages w' !! "U2" = Some l ∧
    Scenario.hello_record ∈ l ∧
    ∃ result,
      filtered_messages "U2" "G1" w' = (Return result, w') ∧ Scenario.hello_record ∈ result.
Proof.
  cbv zeta.
  destruct (record_message_addressee_finds_it Scenario.str Scenario.hello_event "U2" "G1"
              Scenario.empty_world)
    as (w' & l & Hrun & Hlook & Hin & _ & _ & Hquery & _).
  - discriminate.
  - vm_compute. left.
  - reflexivity.
  - vm_compute. reflexivity.
  - exists w', l. split; [exact Hrun | ]. split; [exact Hlook | ].
    assert (Hw' : w' = (record_message Scenario.str Scenario.hello_event
                          Scenario.empty_world).2) by (by rewrite Hrun).
    assert (Hl : l = [Scenario.hello_record]).
    { rewrite Hw' in Hlook. vm_compute in Hlook. injection Hlook as <-. reflexivity. }
    split; [rewrite Hl; left | ].
    destruct Hquery as (result & Hres & Hinres).
    + rewrite Hl. vm_compute. discriminate.
    + exists result. split; [exact Hres | ].
      assert (Hr : result = [Scenario.hello_record]).
      { rewrite Hw' in Hres. vm_compute in Hres. injection Hres as <-. reflexivity. }
      rewrite Hr. left.
Defined.

(** At a retention window of zero days. *)
Lemma record_message_window_not_positive_witness :
  who_at_me_storage_days (config Cases.zero_window) ≤ 0 ∧
  ∃ w',
    record_message Scenario.str Scenario.hello_event Cases.zero_window = (Return tt, w') ∧
    ∀ u l, messages w' !! u = Some l →
           recorded Scenario.str Scenario.hello_event Cases.zero_window ∉ l.
Proof.
  split; [vm_compute; discriminate | ].
  apply (record_message_window_not_positive Scenario.str Scenario.hello_event
           Cases.zero_window).
  - discriminate.
  - vm_compute. discriminate.
  - vm_compute. discriminate.
Defined.

(** At the mention scenario on a healthy disk. *)
Lemma record_message_persists_witness :
  disk Scenario.empty_world = Healthy ∧
  ∃ w',
    record_message Scenario.str Scenario.hello_event Scenario.empty_world = (Return tt, w') ∧
    messages (restarted w') = ∅ ∧
    _load_messages (restarted w') =
      (Return (value_of_messages (messages w')),
       logged (restarted w')
         [info_loaded (sum_list_with (fun p => length p.2) (map_to_list (messages w')))]).
Proof.
  split; [reflexivity | ].
  destruct (record_message_persists Scenario.str Scenario.hello_event Scenario.empty_world)
    as (w' & Hrun & _ & Hload); [discriminate | reflexivity | ].
  exists w'. split; [exact Hrun | ]. split; [reflexivity | ].
  apply Hload. reflexivity.
Defined.

(** At a disk where writing fails after the file was opened. *)
Lemma save_failure_is_swallowed_witness :
  disk Cases.failing_disk = DumpFails ∧
  ∃ w',
    _save_messages Cases.failing_disk = (Return tt, w') ∧
    messages w' = messages Cases.failing_disk ∧
    ∃ w'', _load_messages w' = (Return (Json.Dict []), w'').
Proof.
  split; [reflexivity | ].
  destruct (save_failure_is_swallowed Cases.failing_disk) as (w' & Hrun & Hm & _ & _ & Hload).
  - right. reflexivity.
  - exists w'. split; [exact Hrun | ]. split; [exact Hm | ].
    destruct Hload as (w'' & Hload & _); [reflexivity | ].
    by exists w''.
Defined.
